(** * chess-client: move generation and snapshot reconciliation

    A shallow embedding of [src/main.ts]: the piece classes and their
    [getValidMoves] methods, the 8 x 10 [ChessBoard], and the
    [NetworkedChessGame] controller together with the module-level
    variables ([room], [playerColor], [playerSessionId]) it reads.

    Coordinates are integers ([Z]); the grid is a list of rows, each a list
    of cells, read and written by index.  Methods of the controller run in a
    small state monad over the controller fields, the module-level variables
    and the list of messages handed to [room.send]. *)

From stdpp Require Import base list gmap strings.
From Stdlib Require Import ZArith Lia.

Local Open Scope Z_scope.
#[local] Set Warnings "-clear-no-such-hyp".

(** ** Data model *)

(** [color: 'white' | 'black'] *)
Inductive Color := white | black.

(** [playerColor: 'white' | 'black' | 'spectator'] *)
Inductive PlayerColor := PWhite | PBlack | PSpectator.

(** The piece classes [Pawn], [Rook], ..., [Mann]. *)
Inductive PieceKind := Pawn | Rook | Knight | Bishop | Queen | King | Mann.

(** A square, the object literal [{ row, col }]. *)
Record Pos := mkPos { row : Z; col : Z }.

(** Fields of the abstract class [Piece]; [piece_kind] is the subclass. *)
Record Piece := mkPiece {
  piece_kind : PieceKind;
  piece_color : Color;
  piece_row : Z;
  piece_col : Z;
  piece_hasMoved : bool
}.

Global Instance Color_eq_dec : EqDecision Color.
Proof. solve_decision. Defined.
Global Instance PlayerColor_eq_dec : EqDecision PlayerColor.
Proof. solve_decision. Defined.
Global Instance PieceKind_eq_dec : EqDecision PieceKind.
Proof. solve_decision. Defined.
Global Instance Pos_eq_dec : EqDecision Pos.
Proof. solve_decision. Defined.
Global Instance Piece_eq_dec : EqDecision Piece.
Proof. solve_decision. Defined.

Global Instance Pos_countable : Countable Pos.
Proof.
  refine (inj_countable' (λ p, (row p, col p)) (λ rc, mkPos rc.1 rc.2) _).
  by intros [].
Defined.

(** [getType()] of each subclass. *)
Definition getType (k : PieceKind) : string :=
  match k with
  | Pawn => "pawn" | Rook => "rook" | Knight => "knight" | Bishop => "bishop"
  | Queen => "queen" | King => "king" | Mann => "mann"
  end.

(** [Piece.isOpponent]: [this.color !== other.color]. *)
Definition isOpponent (this other : Piece) : bool :=
  bool_decide (piece_color this ≠ piece_color other).

(** ** ChessBoard *)

(** [pieces: (Piece | null)[][]], rows of cells. *)
Abbreviation ChessBoard := (list (list (option Piece))).

(** [Array(8).fill(null).map(() => Array(10).fill(null))] *)
Definition emptyBoard : ChessBoard := replicate 8 (replicate 10 None).

Definition isValidPosition (pos : Pos) : bool :=
  (0 <=? row pos) && (row pos <? 8) && (0 <=? col pos) && (col pos <? 10).

(** [this.pieces[r][c]] for indices inside the arrays (a missing cell reads
    as no piece). *)
Definition cell (b : ChessBoard) (r c : nat) : option Piece :=
  match b !! r with
  | Some cells => match cells !! c with Some x => x | None => None end
  | None => None
  end.

Definition getPiece (b : ChessBoard) (r c : Z) : option Piece :=
  if negb (isValidPosition (mkPos r c)) then None
  else cell b (Z.to_nat r) (Z.to_nat c).

(** [piece.row = row; piece.col = col].  The source assigns to the fields of
    the object it was handed; the model writes the record with the two fields
    set.  The two agree unless that same object also stands in another cell,
    which [updateFromServerState], the only caller, rules out by building a
    new piece for every entry. *)
Definition stamp (r c : Z) (p : Piece) : Piece :=
  mkPiece (piece_kind p) (piece_color p) r c (piece_hasMoved p).

Definition setPiece (b : ChessBoard) (r c : Z) (piece : option Piece) : ChessBoard :=
  if isValidPosition (mkPos r c) then
    alter (λ cells, <[Z.to_nat c := stamp r c <$> piece]> cells) (Z.to_nat r) b
  else b.

(** An entry of [roomState.pieces]. *)
Record ServerPiece := mkServerPiece {
  sp_type : string;
  sp_color : Color;
  sp_row : Z;
  sp_col : Z;
  sp_hasMoved : bool
}.

(** The [switch (type)] of [createPieceFromType]; [hasMoved] starts [false]. *)
Definition kindOfType (type : string) : option PieceKind :=
  if String.eqb type "pawn" then Some Pawn
  else if String.eqb type "rook" then Some Rook
  else if String.eqb type "knight" then Some Knight
  else if String.eqb type "bishop" then Some Bishop
  else if String.eqb type "queen" then Some Queen
  else if String.eqb type "king" then Some King
  else if String.eqb type "mann" then Some Mann
  else None.

Definition createPieceFromType (type : string) (color : Color) (r c : Z) : option Piece :=
  (λ k, mkPiece k color r c false) <$> kindOfType type.

(** One turn of the loop of [updateFromServerState]. *)
Definition placeServerPiece (b : ChessBoard) (serverPiece : ServerPiece) : ChessBoard :=
  match createPieceFromType (sp_type serverPiece) (sp_color serverPiece)
          (sp_row serverPiece) (sp_col serverPiece) with
  | Some piece =>
      let piece := mkPiece (piece_kind piece) (piece_color piece) (piece_row piece)
                     (piece_col piece) (sp_hasMoved serverPiece) in
      setPiece b (sp_row serverPiece) (sp_col serverPiece) (Some piece)
  | None => b
  end.

(** [updateFromServerState]: the old grid [b] is thrown away first. *)
Definition updateFromServerState (b : ChessBoard) (serverPieces : list ServerPiece) : ChessBoard :=
  foldl placeServerPiece emptyBoard serverPieces.

(** [getAllPieces]: rows 0..7, columns 0..9, in that order. *)
Definition getAllPieces (b : ChessBoard) : list Piece :=
  r ← seq 0 8; c ← seq 0 10;
  match cell b r c with Some piece => [piece] | None => [] end.

(** ** Piece rule table *)

Definition direction (c : Color) : Z := if decide (c = white) then -1 else 1.
Definition startingRow (c : Color) : Z := if decide (c = white) then 6 else 1.

Definition isEmpty (b : ChessBoard) (pos : Pos) : bool :=
  match getPiece b (row pos) (col pos) with None => true | Some _ => false end.

(** The body of the capture loop of [Pawn.getValidMoves]. *)
Definition pawnCapture (this : Piece) (b : ChessBoard) (capturePos : Pos) : list Pos :=
  if isValidPosition capturePos then
    match getPiece b (row capturePos) (col capturePos) with
    | Some piece => if isOpponent this piece then [capturePos] else []
    | None => []
    end
  else [].

Definition pawnMoves (this : Piece) (b : ChessBoard) : list Pos :=
  let direction := direction (piece_color this) in
  let startingRow := startingRow (piece_color this) in
  let oneForward := mkPos (piece_row this + direction) (piece_col this) in
  let forward :=
    if isValidPosition oneForward && isEmpty b oneForward then
      oneForward ::
      (if decide (piece_row this = startingRow) then
         let twoForward := mkPos (piece_row this + 2 * direction) (piece_col this) in
         if isValidPosition twoForward && isEmpty b twoForward then [twoForward] else []
       else [])
    else [] in
  let captureLeft := mkPos (piece_row this + direction) (piece_col this - 1) in
  let captureRight := mkPos (piece_row this + direction) (piece_col this + 1) in
  forward ++ ([captureLeft; captureRight] ≫= pawnCapture this b).

(** The inner loop [for (let i = ...; i < 10; i++)] of the rook and the
    bishop, entered at [i] with [n] turns left: it stops at the first square
    off the board or occupied, keeping an occupied square held by an
    opponent. *)
Fixpoint ray (this : Piece) (b : ChessBoard) (dir : Pos) (n : nat) (i : Z) : list Pos :=
  match n with
  | O => []
  | S n' =>
      let newPos := mkPos (piece_row this + row dir * i) (piece_col this + col dir * i) in
      if negb (isValidPosition newPos) then []
      else match getPiece b (row newPos) (col newPos) with
           | None => newPos :: ray this b dir n' (i + 1)
           | Some piece => if isOpponent this piece then [newPos] else []
           end
  end.

(** [for (const dir of directions) for (let i = 1; i < 10; i++)]: nine turns. *)
Definition slide (this : Piece) (b : ChessBoard) (directions : list Pos) : list Pos :=
  directions ≫= (λ dir, ray this b dir 9 1).

Definition rookDirections : list Pos :=
  [mkPos 0 1; mkPos 0 (-1); mkPos 1 0; mkPos (-1) 0].

Definition bishopDirections : list Pos :=
  [mkPos 1 1; mkPos 1 (-1); mkPos (-1) 1; mkPos (-1) (-1)].

Definition rookMoves (this : Piece) (b : ChessBoard) : list Pos :=
  slide this b rookDirections.

Definition bishopMoves (this : Piece) (b : ChessBoard) : list Pos :=
  slide this b bishopDirections.

(** The shared loop body of the knight, the king and the mann: a square on
    the board that is empty or held by an opponent. *)
Definition stepTo (this : Piece) (b : ChessBoard) (move : Pos) : list Pos :=
  if isValidPosition move then
    match getPiece b (row move) (col move) with
    | None => [move]
    | Some piece => if isOpponent this piece then [move] else []
    end
  else [].

Definition knightMoves (this : Piece) (b : ChessBoard) : list Pos :=
  let r := piece_row this in
  let c := piece_col this in
  [ mkPos (r + 2) (c + 1); mkPos (r + 2) (c - 1);
    mkPos (r - 2) (c + 1); mkPos (r - 2) (c - 1);
    mkPos (r + 1) (c + 2); mkPos (r + 1) (c - 2);
    mkPos (r - 1) (c + 2); mkPos (r - 1) (c - 2) ] ≫= stepTo this b.

Definition kingDirections : list Pos :=
  [ mkPos (-1) (-1); mkPos (-1) 0; mkPos (-1) 1;
    mkPos 0 (-1); mkPos 0 1;
    mkPos 1 (-1); mkPos 1 0; mkPos 1 1 ].

Definition kingMoves (this : Piece) (b : ChessBoard) : list Pos :=
  kingDirections ≫=
    (λ dir, stepTo this b (mkPos (piece_row this + row dir) (piece_col this + col dir))).

(** [Mann.getValidMoves] repeats the king's table and loop. *)
Definition mannMoves (this : Piece) (b : ChessBoard) : list Pos :=
  kingDirections ≫=
    (λ dir, stepTo this b (mkPos (piece_row this + row dir) (piece_col this + col dir))).

(** [Queen.getValidMoves]: a fresh rook and a fresh bishop of the queen's
    colour on the queen's square ([hasMoved] false), their moves appended. *)
Definition queenMoves (this : Piece) (b : ChessBoard) : list Pos :=
  let rook := mkPiece Rook (piece_color this) (piece_row this) (piece_col this) false in
  let bishop := mkPiece Bishop (piece_color this) (piece_row this) (piece_col this) false in
  rookMoves rook b ++ bishopMoves bishop b.

(** The abstract method [getValidMoves], dispatched on the subclass. *)
Definition getValidMoves (this : Piece) (b : ChessBoard) : list Pos :=
  match piece_kind this with
  | Pawn => pawnMoves this b
  | Rook => rookMoves this b
  | Knight => knightMoves this b
  | Bishop => bishopMoves this b
  | Queen => queenMoves this b
  | King => kingMoves this b
  | Mann => mannMoves this b
  end.

(** ** Module-level state and the controller *)

(** A message handed to [room.send]. *)
Inductive Message :=
  | MsgSelect (row col : Z)
  | MsgDeselect
  | MsgMove (fromRow fromCol toRow toCol : Z)
  | MsgRestart.

(** The fields of [ChessRoomState] that [updateFromServer] reads. *)
Record RoomState := mkRoomState {
  pieces : list ServerPiece;
  currentTurn : Color;
  rs_gameStatus : string;
  selectedPiecePlayer : string;
  selectedRow : Z;
  selectedCol : Z
}.

(** The joined room; [room] stays [undefined] when joining failed. *)
Record Room := mkRoom { sessionId : string }.

(** Private fields of [NetworkedChessGame]. *)
Record NetworkedChessGame := mkGame {
  board : ChessBoard;
  currentPlayer : Color;
  selectedPiece : option Piece;
  gameStatus : string
}.

(** [new NetworkedChessGame()] *)
Definition newGame : NetworkedChessGame := mkGame emptyBoard white None "waiting".

(** The controller, the module-level [let] variables ([playerColor] is
    [undefined] until the [gameState] message assigns it) and the messages
    sent so far, oldest first. *)
Record World := mkWorld {
  chessGame : NetworkedChessGame;
  room : option Room;
  playerColor : option PlayerColor;
  playerSessionId : string;
  sent : list Message
}.

(** State monad over [World]. *)
Definition M (A : Type) : Type := World → A * World.

Global Instance M_ret : MRet M := λ A a w, (a, w).
Global Instance M_bind : MBind M := λ A B f m w, let '(a, w') := m w in f a w'.

Definition get : M World := λ w, (w, w).
Definition putGame (g : NetworkedChessGame) : M unit :=
  λ w, (tt, mkWorld g (room w) (playerColor w) (playerSessionId w) (sent w)).
Definition emit (m : Message) : M unit :=
  λ w, (tt, mkWorld (chessGame w) (room w) (playerColor w) (playerSessionId w)
              (sent w ++ [m])).

(** [if (room) { room.send(m) }] *)
Definition sendIfRoom (m : Message) : M unit :=
  w ← get;
  match room w with Some _ => emit m | None => mret tt end.

(** [c === playerColor] for a side [c]. *)
Definition isPlayerColor (c : Color) (pc : option PlayerColor) : bool :=
  match c, pc with
  | white, Some PWhite => true
  | black, Some PBlack => true
  | _, _ => false
  end.

Definition updateFromServer (roomState : RoomState) : M unit :=
  w ← get;
  let board' := updateFromServerState (board (chessGame w)) (pieces roomState) in
  let selected :=
    if decide (selectedPiecePlayer roomState = playerSessionId w)
    then getPiece board' (selectedRow roomState) (selectedCol roomState)
    else None in
  putGame (mkGame board' (currentTurn roomState) selected (rs_gameStatus roomState)).

Definition selectPiece (r c : Z) : M bool :=
  w ← get;
  match getPiece (board (chessGame w)) r c with
  | None => mret false
  | Some piece =>
      if negb (isPlayerColor (piece_color piece) (playerColor w))
         || negb (isPlayerColor (currentPlayer (chessGame w)) (playerColor w))
      then mret false
      else sendIfRoom (MsgSelect r c) ;; mret true
  end.

Definition deselectPiece : M unit := sendIfRoom MsgDeselect.

Definition getValidMovesForSelected : M (list Pos) :=
  w ← get;
  match selectedPiece (chessGame w) with
  | None => mret []
  | Some piece => mret (getValidMoves piece (board (chessGame w)))
  end.

(** [validMoves.some(move => move.row === toRow && move.col === toCol)] *)
Definition isValidMove (validMoves : list Pos) (toRow toCol : Z) : bool :=
  existsb (λ move, (row move =? toRow) && (col move =? toCol)) validMoves.

Definition makeMove (toRow toCol : Z) : M bool :=
  w ← get;
  match selectedPiece (chessGame w) with
  | None => mret false
  | Some piece =>
      if bool_decide (playerColor w = Some PSpectator) then mret false
      else
        validMoves ← getValidMovesForSelected;
        if negb (isValidMove validMoves toRow toCol) then mret false
        else
          sendIfRoom (MsgMove (piece_row piece) (piece_col piece) toRow toCol) ;;
          mret true
  end.

Definition canPlayerAct : M bool :=
  w ← get;
  mret (negb (bool_decide (playerColor w = Some PSpectator))
       && isPlayerColor (currentPlayer (chessGame w)) (playerColor w)
       && String.eqb (gameStatus (chessGame w)) "playing").

(** * Properties *)

(** ** The bounds predicate and the grid *)

Lemma isValidPosition_spec pos :
  isValidPosition pos = true ↔ (0 ≤ row pos < 8 ∧ 0 ≤ col pos < 10).
Proof. unfold isValidPosition. rewrite !andb_true_iff. lia. Qed.

Lemma isValidPosition_false pos :
  isValidPosition pos = false ↔ ¬ (0 ≤ row pos < 8 ∧ 0 ≤ col pos < 10).
Proof. rewrite <- isValidPosition_spec. by destruct (isValidPosition pos). Qed.

(** The shape every grid built by the constructor or by
    [updateFromServerState] has: 8 rows of 10 cells. *)
Definition board_wf (b : ChessBoard) : Prop :=
  length b = 8%nat ∧ Forall (λ cells, length cells = 10%nat) b.

(** A piece's own [row]/[col] fields name the cell that holds it. *)
Definition board_stamped (b : ChessBoard) : Prop :=
  ∀ r c p, cell b r c = Some p →
    piece_row p = Z.of_nat r ∧ piece_col p = Z.of_nat c.

Lemma emptyBoard_wf : board_wf emptyBoard.
Proof. split; [done | by repeat constructor]. Qed.

Lemma cell_emptyBoard r c : cell emptyBoard r c = None.
Proof.
  unfold cell, emptyBoard.
  destruct (replicate 8 (replicate 10 (@None Piece)) !! r) as [cells|] eqn:Hr; [| done].
  apply lookup_replicate in Hr as [-> _].
  destruct (replicate 10 (@None Piece) !! c) as [x|] eqn:Hc; [| done].
  by apply lookup_replicate in Hc as [-> _].
Qed.

Lemma getPiece_out_of_bounds b r c :
  isValidPosition (mkPos r c) = false → getPiece b r c = None.
Proof. unfold getPiece. by intros ->. Qed.

Lemma getPiece_Some_valid b r c p :
  getPiece b r c = Some p → isValidPosition (mkPos r c) = true.
Proof. unfold getPiece. by destruct (isValidPosition _). Qed.

Lemma getPiece_cell b r c :
  isValidPosition (mkPos r c) = true →
  getPiece b r c = cell b (Z.to_nat r) (Z.to_nat c).
Proof. unfold getPiece. by intros ->. Qed.

Lemma setPiece_out_of_bounds b r c x :
  isValidPosition (mkPos r c) = false → setPiece b r c x = b.
Proof. unfold setPiece. by intros ->. Qed.

Lemma setPiece_wf b r c x : board_wf b → board_wf (setPiece b r c x).
Proof.
  intros [Hlen Hrows]. unfold setPiece.
  destruct (isValidPosition _); [| done]. split.
  - by rewrite length_alter.
  - apply Forall_lookup. intros i cells Hi.
    destruct (decide (i = Z.to_nat r)) as [-> | Hne].
    + rewrite list_lookup_alter_eq in Hi.
      destruct (b !! Z.to_nat r) as [old|] eqn:Hold; simplify_eq/=.
      rewrite length_insert. by eapply Forall_lookup_1 in Hrows.
    + rewrite list_lookup_alter_ne in Hi by done.
      by eapply Forall_lookup_1 in Hrows.
Qed.

(** Reading a cell after a write inside the grid. *)
Lemma cell_setPiece b r c x r' c' :
  board_wf b → isValidPosition (mkPos r c) = true →
  cell (setPiece b r c x) r' c' =
    if decide (r' = Z.to_nat r ∧ c' = Z.to_nat c) then stamp r c <$> x
    else cell b r' c'.
Proof.
  intros [Hlen Hrows] Hv. unfold setPiece. rewrite Hv.
  apply isValidPosition_spec in Hv. simpl in Hv. unfold cell.
  destruct (decide (r' = Z.to_nat r)) as [-> | Hr].
  - rewrite list_lookup_alter_eq.
    destruct (lookup_lt_is_Some_2 b (Z.to_nat r)) as [cells Hcells]; [lia |].
    rewrite Hcells. simpl.
    assert (length cells = 10%nat) as Hc by by eapply Forall_lookup_1 in Hrows.
    destruct (decide (c' = Z.to_nat c)) as [-> | Hc'].
    + rewrite list_lookup_insert_eq by lia.
      by rewrite decide_True.
    + rewrite list_lookup_insert_ne by done.
      rewrite decide_False; [done | by intros [_ ?]].
  - rewrite list_lookup_alter_ne by done.
    rewrite decide_False; [done | by intros [? _]].
Qed.

Lemma setPiece_stamped b r c x :
  board_wf b → board_stamped b → board_stamped (setPiece b r c x).
Proof.
  intros Hwf Hst. destruct (isValidPosition (mkPos r c)) eqn:Hv.
  - intros r' c' p. rewrite cell_setPiece by done.
    case_decide as Hrc; [| by apply Hst].
    destruct Hrc as [-> ->]. apply isValidPosition_spec in Hv. simpl in Hv.
    destruct x as [q|]; intros; simplify_eq/=. lia.
  - by rewrite setPiece_out_of_bounds.
Qed.

Lemma placeServerPiece_wf b e : board_wf b → board_wf (placeServerPiece b e).
Proof.
  unfold placeServerPiece. destruct (createPieceFromType _ _ _ _); [| done].
  apply setPiece_wf.
Qed.

Lemma placeServerPiece_stamped b e :
  board_wf b → board_stamped b → board_stamped (placeServerPiece b e).
Proof.
  unfold placeServerPiece. destruct (createPieceFromType _ _ _ _); [| done].
  apply setPiece_stamped.
Qed.

Lemma foldl_placeServerPiece_inv b sps :
  board_wf b → board_stamped b →
  board_wf (foldl placeServerPiece b sps) ∧
  board_stamped (foldl placeServerPiece b sps).
Proof.
  revert b. induction sps as [| e sps IH]; intros b Hwf Hst; [done |].
  simpl. apply IH; [by apply placeServerPiece_wf | by apply placeServerPiece_stamped].
Qed.

Lemma updateFromServerState_wf b sps : board_wf (updateFromServerState b sps).
Proof.
  apply foldl_placeServerPiece_inv; [apply emptyBoard_wf |].
  intros r c p. by rewrite cell_emptyBoard.
Qed.

Lemma updateFromServerState_stamped b sps :
  board_stamped (updateFromServerState b sps).
Proof.
  apply foldl_placeServerPiece_inv; [apply emptyBoard_wf |].
  intros r c p. by rewrite cell_emptyBoard.
Qed.

Lemma elem_of_getAllPieces b p :
  p ∈ getAllPieces b ↔ ∃ r c, (r < 8)%nat ∧ (c < 10)%nat ∧ cell b r c = Some p.
Proof.
  unfold getAllPieces. rewrite list_elem_of_bind. split.
  - intros (r & Hp & Hr). apply list_elem_of_bind in Hp as (c & Hp & Hc).
    apply elem_of_seq in Hr, Hc. exists r, c.
    destruct (cell b r c) as [q|]; [| by apply elem_of_nil in Hp].
    apply list_elem_of_singleton in Hp as ->. repeat split; [lia | lia].
  - intros (r & c & Hr & Hc & Hp). exists r. split; [| apply elem_of_seq; lia].
    apply list_elem_of_bind. exists c. split; [| apply elem_of_seq; lia].
    rewrite Hp. by apply list_elem_of_singleton.
Qed.

Lemma placeServerPiece_out_of_bounds b e :
  isValidPosition (mkPos (sp_row e) (sp_col e)) = false → placeServerPiece b e = b.
Proof.
  intros Hv. unfold placeServerPiece.
  destruct (createPieceFromType _ _ _ _); [| done].
  by apply setPiece_out_of_bounds.
Qed.

(** ** Move generation stays on the board *)

Lemma stepTo_elem this b move pos :
  pos ∈ stepTo this b move ↔
    pos = move ∧ isValidPosition move = true ∧
    match getPiece b (row move) (col move) with
    | None => True
    | Some piece => piece_color this ≠ piece_color piece
    end.
Proof.
  unfold stepTo, isOpponent. destruct (isValidPosition move).
  - destruct (getPiece b (row move) (col move)) as [q|].
    + case_bool_decide; [rewrite list_elem_of_singleton | rewrite elem_of_nil];
        naive_solver.
    + rewrite list_elem_of_singleton. naive_solver.
  - rewrite elem_of_nil. naive_solver.
Qed.

Lemma pawnCapture_elem this b capturePos pos :
  pos ∈ pawnCapture this b capturePos ↔
    pos = capturePos ∧ isValidPosition capturePos = true ∧
    ∃ piece, getPiece b (row capturePos) (col capturePos) = Some piece ∧
             piece_color this ≠ piece_color piece.
Proof.
  unfold pawnCapture, isOpponent. destruct (isValidPosition capturePos).
  - destruct (getPiece b (row capturePos) (col capturePos)) as [q|].
    + case_bool_decide; [rewrite list_elem_of_singleton | rewrite elem_of_nil];
        naive_solver.
    + rewrite elem_of_nil. naive_solver.
  - rewrite elem_of_nil. naive_solver.
Qed.

Lemma ray_valid this b dir n i pos :
  pos ∈ ray this b dir n i → isValidPosition pos = true.
Proof.
  revert i. induction n as [| n IH]; intros i; simpl; [by intros ?%elem_of_nil |].
  destruct (isValidPosition (mkPos _ _)) eqn:Hv; simpl; [| by intros ?%elem_of_nil].
  destruct (getPiece b _ _) as [q|].
  - destruct (isOpponent this q); [| by intros ?%elem_of_nil].
    by intros ->%list_elem_of_singleton.
  - intros [-> | Hin]%elem_of_cons; [done | by eapply IH].
Qed.

Lemma slide_valid this b directions pos :
  pos ∈ slide this b directions → isValidPosition pos = true.
Proof.
  unfold slide. rewrite list_elem_of_bind. intros (dir & Hin & _).
  by eapply ray_valid.
Qed.

Lemma pawnMoves_valid this b pos :
  pos ∈ pawnMoves this b → isValidPosition pos = true.
Proof.
  unfold pawnMoves. cbv zeta. rewrite elem_of_app, list_elem_of_bind.
  intros [Hfwd | (cap & Hin & _)].
  - destruct (isValidPosition (mkPos (piece_row this + _) _)) eqn:H1; simpl in Hfwd;
      [| by apply elem_of_nil in Hfwd].
    destruct (isEmpty b _); [| by apply elem_of_nil in Hfwd].
    apply elem_of_cons in Hfwd as [-> | Hfwd]; [done |].
    case_decide; [| by apply elem_of_nil in Hfwd].
    destruct (isValidPosition (mkPos (piece_row this + 2 * _) _)) eqn:H2;
      simpl in Hfwd; [| by apply elem_of_nil in Hfwd].
    destruct (isEmpty b _); [| by apply elem_of_nil in Hfwd].
    by apply list_elem_of_singleton in Hfwd as ->.
  - by apply pawnCapture_elem in Hin as (-> & ? & _).
Qed.

Lemma getValidMoves_valid this b pos :
  pos ∈ getValidMoves this b → isValidPosition pos = true.
Proof.
  unfold getValidMoves. destruct (piece_kind this).
  - apply pawnMoves_valid.
  - apply slide_valid.
  - unfold knightMoves. cbv zeta. rewrite list_elem_of_bind.
    intros (m & Hin & _). by apply stepTo_elem in Hin as (-> & ? & _).
  - apply slide_valid.
  - unfold queenMoves. cbv zeta. rewrite elem_of_app.
    intros [H | H]; by eapply slide_valid.
  - unfold kingMoves. rewrite list_elem_of_bind.
    intros (m & Hin & _). by apply stepTo_elem in Hin as (-> & ? & _).
  - unfold mannMoves. rewrite list_elem_of_bind.
    intros (m & Hin & _). by apply stepTo_elem in Hin as (-> & ? & _).
Qed.

(** C3. For a piece of any kind and colour at any position (on the board or
    not) and any board, every square returned by [getValidMoves] satisfies
    [isValidPosition], that is, its row is in [0,8) and its column in
    [0,10). *)
Theorem getValidMoves_in_bounds (kind : PieceKind) (color : Color) (r c : Z)
    (hasMoved : bool) (b : ChessBoard) :
  Forall (λ pos, isValidPosition pos = true ∧ 0 ≤ row pos < 8 ∧ 0 ≤ col pos < 10)
    (getValidMoves (mkPiece kind color r c hasMoved) b).
Proof.
  apply Forall_forall. intros pos Hin.
  apply getValidMoves_valid in Hin. split; [done |].
  by apply isValidPosition_spec.
Qed.

(** ** Queen = rook + bishop *)

(** A ray reads only the colour and the square of the moving piece. *)
Lemma ray_ext this that b dir n i :
  piece_color this = piece_color that →
  piece_row this = piece_row that →
  piece_col this = piece_col that →
  ray this b dir n i = ray that b dir n i.
Proof.
  intros Hc Hr Hl. revert i. induction n as [| n IH]; intros i; simpl; [done |].
  rewrite Hr, Hl, IH. unfold isOpponent. by rewrite Hc.
Qed.

Lemma slide_ext this that b directions :
  piece_color this = piece_color that →
  piece_row this = piece_row that →
  piece_col this = piece_col that →
  slide this b directions = slide that b directions.
Proof.
  intros Hc Hr Hl. unfold slide.
  induction directions as [| dir ds IH]; [done |].
  rewrite !bind_cons, IH. f_equal. by apply ray_ext.
Qed.

(** C7. On every board, the set of squares generated for a queen equals the
    union of the sets generated for a rook and for a bishop of the same
    colour on the same square. *)
Theorem queen_is_rook_union_bishop (b : ChessBoard) (color : Color) (r c : Z)
    (movedQ movedR movedB : bool) :
  list_to_set (getValidMoves (mkPiece Queen color r c movedQ) b) =@{gset Pos}
    list_to_set (getValidMoves (mkPiece Rook color r c movedR) b) ∪
    list_to_set (getValidMoves (mkPiece Bishop color r c movedB) b).
Proof.
  unfold getValidMoves. simpl. unfold queenMoves, rookMoves, bishopMoves. simpl.
  rewrite list_to_set_app_L. f_equal; f_equal; by apply slide_ext.
Qed.

(** ** Pawn *)

Lemma isEmpty_true b pos :
  isEmpty b pos = true ↔ getPiece b (row pos) (col pos) = None.
Proof. unfold isEmpty. by destruct (getPiece b _ _). Qed.

(** Exactly which squares [Pawn.getValidMoves] returns. *)
Lemma pawnMoves_elem this b pos :
  let d := direction (piece_color this) in
  let one := mkPos (piece_row this + d) (piece_col this) in
  let two := mkPos (piece_row this + 2 * d) (piece_col this) in
  pos ∈ pawnMoves this b ↔
    (pos = one ∧ isValidPosition one = true ∧ getPiece b (row one) (col one) = None)
    ∨ (pos = two ∧ piece_row this = startingRow (piece_color this) ∧
       isValidPosition one = true ∧ getPiece b (row one) (col one) = None ∧
       isValidPosition two = true ∧ getPiece b (row two) (col two) = None)
    ∨ (∃ dc, (dc = -1 ∨ dc = 1) ∧
         pos = mkPos (piece_row this + d) (piece_col this + dc) ∧
         isValidPosition pos = true ∧
         ∃ piece, getPiece b (row pos) (col pos) = Some piece ∧
                  piece_color this ≠ piece_color piece).
Proof.
  intros d one two. unfold pawnMoves. cbv zeta. fold d. fold one. fold two.
  rewrite elem_of_app, list_elem_of_bind.
  setoid_rewrite elem_of_cons. setoid_rewrite list_elem_of_singleton.
  setoid_rewrite pawnCapture_elem.
  rewrite <- !isEmpty_true.
  split.
  - intros [Hfwd | (cap & (-> & Hv & Hq) & Hcap)].
    + destruct (isValidPosition one) eqn:H1; simpl in Hfwd;
        [| by apply elem_of_nil in Hfwd].
      destruct (isEmpty b one) eqn:E1; [| by apply elem_of_nil in Hfwd].
      apply elem_of_cons in Hfwd as [-> | Hfwd]; [by left |].
      case_decide; [| by apply elem_of_nil in Hfwd].
      destruct (isValidPosition two) eqn:H2; simpl in Hfwd;
        [| by apply elem_of_nil in Hfwd].
      destruct (isEmpty b two) eqn:E2; [| by apply elem_of_nil in Hfwd].
      apply list_elem_of_singleton in Hfwd as ->. right; left. done.
    + right; right. destruct Hcap as [-> | ->].
      * exists (-1). split; [by left |]. by replace (piece_col this + -1) with
          (piece_col this - 1) by lia.
      * exists 1. split; [by right |]. done.
  - intros [(-> & H1 & E1) | [(-> & Hs & H1 & E1 & H2 & E2) | (dc & Hdc & -> & Hv & Hq)]].
    + left. rewrite H1, E1. simpl. apply elem_of_cons. by left.
    + left. rewrite H1, E1. simpl. apply elem_of_cons. right.
      rewrite decide_True by done. rewrite H2, E2. simpl.
      by apply list_elem_of_singleton.
    + right. eexists. split; [done |]. destruct Hdc as [-> | ->].
      * by left.
      * by right.
Qed.

(** The boards of the worked example. *)
Definition examplePawn : Piece := mkPiece Pawn white 6 4 false.
Definition boardLonePawn : ChessBoard := setPiece emptyBoard 6 4 (Some examplePawn).
Definition boardWithOpponent (opponent : Piece) : ChessBoard :=
  setPiece boardLonePawn 5 3 (Some opponent).
Definition boardBlocked (opponent own : Piece) : ChessBoard :=
  setPiece (boardWithOpponent opponent) 5 4 (Some own).

(** C4. A pawn steps by -1 rows when white and +1 when black.  The square one
    step ahead is returned only if it is empty; the square two steps ahead
    only if the pawn stands on its home row (6 for white, 1 for black) and
    both the square between and the target are empty; each forward diagonal
    only if it holds a piece of the other colour.  On the example boards: a
    lone white pawn on (6,4) gets (5,4) and (4,4); with an opposing piece on
    (5,3) it gets (5,4), (4,4) and (5,3); with, in addition, an own piece on
    (5,4) it gets (5,3) only. *)
Theorem pawn_moves_rule :
  (∀ (color : Color) (r c : Z) (hasMoved : bool) (b : ChessBoard),
     let pawn := mkPiece Pawn color r c hasMoved in
     let d := match color with white => -1 | black => 1 end in
     let home := match color with white => 6 | black => 1 end in
     (mkPos (r + d) c ∈ getValidMoves pawn b → getPiece b (r + d) c = None)
     ∧ (mkPos (r + 2 * d) c ∈ getValidMoves pawn b →
          r = home ∧ getPiece b (r + d) c = None ∧ getPiece b (r + 2 * d) c = None)
     ∧ (∀ dc, dc = -1 ∨ dc = 1 →
          mkPos (r + d) (c + dc) ∈ getValidMoves pawn b →
          ∃ piece, getPiece b (r + d) (c + dc) = Some piece ∧
                   piece_color piece ≠ color))
  ∧ getPiece boardLonePawn 6 4 = Some examplePawn
  ∧ getValidMoves examplePawn boardLonePawn = [mkPos 5 4; mkPos 4 4]
  ∧ (∀ (k1 k2 : PieceKind) (m1 m2 : bool),
       let opponent := mkPiece k1 black 5 3 m1 in
       let own := mkPiece k2 white 5 4 m2 in
       getPiece (boardWithOpponent opponent) 6 4 = Some examplePawn
       ∧ getValidMoves examplePawn (boardWithOpponent opponent)
           = [mkPos 5 4; mkPos 4 4; mkPos 5 3]
       ∧ getPiece (boardBlocked opponent own) 6 4 = Some examplePawn
       ∧ getValidMoves examplePawn (boardBlocked opponent own) = [mkPos 5 3]).
Proof.
  split; [| by repeat split].
  intros color r c hasMoved b pawn d home.
  assert (d = direction color) as Hd by by destruct color.
  assert (home = startingRow color) as Hh by by destruct color.
  assert (d = -1 ∨ d = 1) as Hd1 by (destruct color; lia).
  unfold getValidMoves. simpl. repeat split.
  - intros Hin. apply pawnMoves_elem in Hin. simpl in Hin. rewrite <- Hd in Hin.
    destruct Hin as [(_ & _ & E) | [(Heq & _) | (dc & Hdc & Heq & _)]];
      [done | |]; simplify_eq; lia.
  - apply pawnMoves_elem in H. simpl in H. rewrite <- Hd, <- Hh in H.
    destruct H as [(Heq & _) | [(_ & Hs & _) | (dc & Hdc & Heq & _)]];
      [| done |]; simplify_eq; lia.
  - apply pawnMoves_elem in H. simpl in H. rewrite <- Hd in H.
    destruct H as [(Heq & _) | [(_ & _ & _ & E & _) | (dc & Hdc & Heq & _)]];
      [| done |]; simplify_eq; lia.
  - apply pawnMoves_elem in H. simpl in H. rewrite <- Hd in H.
    destruct H as [(Heq & _) | [(_ & _ & _ & _ & _ & E) | (dc & Hdc & Heq & _)]];
      [| done |]; simplify_eq; lia.
  - intros dc Hdc Hin. apply pawnMoves_elem in Hin. simpl in Hin.
    rewrite <- Hd in Hin.
    destruct Hin as [(Heq & _) | [(Heq & _) | (dc' & Hdc' & Heq & _ & q & Hq & Hne)]];
      [simplify_eq; lia | simplify_eq; lia |].
    exists q. split; [| done]. simplify_eq. done.
Qed.

Lemma pawn_moves_rule_witness :
  getPiece boardLonePawn 5 4 = None
  ∧ (6 = 6 ∧ getPiece boardLonePawn 5 4 = None ∧ getPiece boardLonePawn 4 4 = None)
  ∧ ∃ piece, getPiece (boardWithOpponent (mkPiece Mann black 5 3 false)) 5 3
               = Some piece ∧ piece_color piece ≠ white.
Proof.
  destruct pawn_moves_rule as (Hrule & _).
  destruct (Hrule white 6 4 false boardLonePawn) as (Hone & Htwo & _).
  destruct (Hrule white 6 4 false (boardWithOpponent (mkPiece Mann black 5 3 false)))
    as (_ & _ & Hdiag).
  split; [| split].
  - apply Hone. vm_compute. apply list_elem_of_here.
  - apply Htwo. vm_compute. apply list_elem_of_further, list_elem_of_here.
  - apply (Hdiag (-1)); [by left |]. vm_compute.
    apply list_elem_of_further, list_elem_of_further, list_elem_of_here.
Defined.

(** ** Snapshot replacement *)

(** The kind strings [createPieceFromType] knows. *)
Definition knownKinds : list string :=
  ["pawn"; "rook"; "knight"; "bishop"; "queen"; "king"; "mann"].

Lemma kindOfType_None type : kindOfType type = None ↔ type ∉ knownKinds.
Proof.
  unfold kindOfType, knownKinds.
  repeat match goal with
  | |- context [String.eqb type ?s] =>
      destruct (String.eqb_spec type s) as [-> | ?];
        [split; [done | intros Hn; exfalso; apply Hn; set_solver] |]
  end.
  split; [intros _ | done]. set_solver.
Qed.

Lemma kindOfType_getType k : kindOfType (getType k) = Some k.
Proof. by destruct k. Qed.

Lemma updateFromServerState_skip b pre e post :
  (∀ b', placeServerPiece b' e = b') →
  updateFromServerState b (pre ++ e :: post) = updateFromServerState b (pre ++ post).
Proof.
  intros Hskip. unfold updateFromServerState.
  rewrite !foldl_app. simpl. by rewrite Hskip.
Qed.

(** C10. [getPiece] off the board returns no piece and [setPiece] off the
    board leaves the grid as it was, for any integer coordinates; hence a
    snapshot entry with coordinates off the board is dropped, and every
    piece on a grid built from a snapshot sits on a square with row in
    [0,8) and column in [0,10), which is the square its own fields name. *)
Theorem board_accessors_total :
  (∀ (b : ChessBoard) r c,
     isValidPosition (mkPos r c) = false → getPiece b r c = None)
  ∧ (∀ (b : ChessBoard) r c piece,
       isValidPosition (mkPos r c) = false → setPiece b r c piece = b)
  ∧ (∀ (b : ChessBoard) pre e post,
       isValidPosition (mkPos (sp_row e) (sp_col e)) = false →
       updateFromServerState b (pre ++ e :: post) =
       updateFromServerState b (pre ++ post))
  ∧ (∀ (b : ChessBoard) serverPieces p,
       p ∈ getAllPieces (updateFromServerState b serverPieces) →
       0 ≤ piece_row p < 8 ∧ 0 ≤ piece_col p < 10 ∧
       getPiece (updateFromServerState b serverPieces) (piece_row p) (piece_col p)
         = Some p).
Proof.
  split; [apply getPiece_out_of_bounds |].
  split; [apply setPiece_out_of_bounds |].
  split.
  - intros b pre e post Hv. apply updateFromServerState_skip.
    intros b'. by apply placeServerPiece_out_of_bounds.
  - intros b sps p Hin.
    apply elem_of_getAllPieces in Hin as (r & c & Hr & Hc & Hcell).
    destruct (updateFromServerState_stamped b sps r c p Hcell) as [Hpr Hpc].
    assert (isValidPosition (mkPos (piece_row p) (piece_col p)) = true) as Hv
      by (apply isValidPosition_spec; simpl; lia).
    split; [lia |]. split; [lia |].
    rewrite getPiece_cell by done. by rewrite Hpr, Hpc, !Nat2Z.id.
Qed.

Lemma board_accessors_total_witness :
  getPiece boardLonePawn 8 4 = None
  ∧ setPiece boardLonePawn 6 10 (Some examplePawn) = boardLonePawn
  ∧ updateFromServerState []
      ([mkServerPiece "pawn" white 6 4 false] ++
       mkServerPiece "king" black (-1) 3 false :: [mkServerPiece "rook" black 0 0 true])
    = updateFromServerState []
      ([mkServerPiece "pawn" white 6 4 false] ++ [mkServerPiece "rook" black 0 0 true])
  ∧ (0 ≤ piece_row examplePawn < 8 ∧ 0 ≤ piece_col examplePawn < 10 ∧
     getPiece (updateFromServerState [] [mkServerPiece "pawn" white 6 4 false])
       (piece_row examplePawn) (piece_col examplePawn) = Some examplePawn).
Proof.
  destruct board_accessors_total as (Hget & Hset & Hdrop & Hall).
  split; [by apply Hget |]. split; [by apply Hset |]. split; [by apply Hdrop |].
  apply Hall. vm_compute. apply list_elem_of_here.
Defined.

(** ** The controller *)

(** Unfolds the monad so that a method reads as a function on [World]. *)
Ltac run :=
  unfold updateFromServer, selectPiece, deselectPiece, makeMove, canPlayerAct,
    getValidMovesForSelected, sendIfRoom, emit, putGame, get,
    mbind, M_bind, mret, M_ret; simpl.

(** The world with [msgs] appended to the messages sent; all else as in [w]. *)
Definition withSent (w : World) (msgs : list Message) : World :=
  mkWorld (chessGame w) (room w) (playerColor w) (playerSessionId w) (sent w ++ msgs).

(** What [sendIfRoom m] adds: [m] when a room was joined, nothing otherwise. *)
Definition delivered (w : World) (m : Message) : list Message :=
  match room w with Some _ => [m] | None => [] end.

(** The role that plays side [c]. *)
Definition roleOf (c : Color) : PlayerColor :=
  match c with white => PWhite | black => PBlack end.

Lemma withSent_nil w : withSent w [] = w.
Proof. destruct w. unfold withSent. simpl. by rewrite app_nil_r. Qed.

Lemma isPlayerColor_spec c pc : isPlayerColor c pc = true ↔ pc = Some (roleOf c).
Proof. destruct c, pc as [[]|]; simpl; naive_solver. Qed.

Lemma sendIfRoom_run m w : sendIfRoom m w = (tt, withSent w (delivered w m)).
Proof.
  destruct w as [g [rm|] pc sid msgs]; run; unfold delivered, withSent; simpl;
    [done | by rewrite app_nil_r].
Qed.

Lemma isValidMove_elem validMoves toRow toCol :
  isValidMove validMoves toRow toCol = true ↔ mkPos toRow toCol ∈ validMoves.
Proof.
  unfold isValidMove. rewrite existsb_exists. split.
  - intros ([r c] & Hin & Heq). apply andb_true_iff in Heq as [Hr Hc].
    apply Z.eqb_eq in Hr, Hc. simpl in *. subst. by apply list_elem_of_In.
  - intros Hin. exists (mkPos toRow toCol). split; [by apply list_elem_of_In |].
    simpl. by rewrite !Z.eqb_refl.
Qed.

(** The methods as functions on [World]. *)
Lemma selectPiece_run r c w :
  selectPiece r c w =
    match getPiece (board (chessGame w)) r c with
    | None => (false, w)
    | Some piece =>
        if negb (isPlayerColor (piece_color piece) (playerColor w))
           || negb (isPlayerColor (currentPlayer (chessGame w)) (playerColor w))
        then (false, w)
        else (true, withSent w (delivered w (MsgSelect r c)))
    end.
Proof.
  unfold selectPiece, mbind, M_bind, get, mret, M_ret.
  destruct (getPiece (board (chessGame w)) r c) as [piece|]; [| done].
  destruct (negb _ || negb _); [done |]. by rewrite sendIfRoom_run.
Qed.

Lemma getValidMovesForSelected_run w :
  getValidMovesForSelected w =
    (match selectedPiece (chessGame w) with
     | None => []
     | Some piece => getValidMoves piece (board (chessGame w))
     end, w).
Proof.
  unfold getValidMovesForSelected, mbind, M_bind, get, mret, M_ret.
  by destruct (selectedPiece (chessGame w)).
Qed.

Lemma makeMove_run toRow toCol w :
  makeMove toRow toCol w =
    match selectedPiece (chessGame w) with
    | None => (false, w)
    | Some piece =>
        if bool_decide (playerColor w = Some PSpectator) then (false, w)
        else if isValidMove (getValidMoves piece (board (chessGame w))) toRow toCol
        then (true, withSent w (delivered w
                (MsgMove (piece_row piece) (piece_col piece) toRow toCol)))
        else (false, w)
    end.
Proof.
  unfold makeMove. unfold mbind at 1. unfold M_bind, get.
  destruct (selectedPiece (chessGame w)) as [piece|] eqn:Hsel; [| done].
  destruct (bool_decide _); [done |].
  unfold mbind, M_bind. rewrite getValidMovesForSelected_run, Hsel.
  destruct (isValidMove _ toRow toCol); simpl; [| done].
  by rewrite sendIfRoom_run.
Qed.

(** C5. Reconciling the same snapshot a second time changes nothing: the
    board, the turn, the status and the selection (indeed the whole state)
    are what they were after the first time. *)
Theorem updateFromServer_idempotent (roomState : RoomState) (w : World) :
  let w1 := (updateFromServer roomState w).2 in
  let w2 := (updateFromServer roomState w1).2 in
  board (chessGame w2) = board (chessGame w1)
  ∧ currentPlayer (chessGame w2) = currentPlayer (chessGame w1)
  ∧ gameStatus (chessGame w2) = gameStatus (chessGame w1)
  ∧ selectedPiece (chessGame w2) = selectedPiece (chessGame w1)
  ∧ w2 = w1.
Proof. by run. Qed.

(** C9. After reconciling a snapshot whose selecting session is not the own
    session, there is no local selection.  When it is the own session, the
    selection is whatever [getPiece] finds on the new board at the snapshot's
    coordinates: none when they are off the board, none when the square is
    empty.  [updateFromServer] is a total function: nothing is raised. *)
Theorem stale_selection_is_no_selection (roomState : RoomState) (w : World) :
  let g := chessGame (updateFromServer roomState w).2 in
  let r := selectedRow roomState in
  let c := selectedCol roomState in
  (selectedPiecePlayer roomState ≠ playerSessionId w → selectedPiece g = None)
  ∧ (selectedPiecePlayer roomState = playerSessionId w →
       selectedPiece g = getPiece (board g) r c
       ∧ (isValidPosition (mkPos r c) = false → selectedPiece g = None)
       ∧ (getPiece (board g) r c = None → selectedPiece g = None)).
Proof.
  run. split; intros Hs.
  - by rewrite decide_False.
  - rewrite decide_True by done. split; [done |]. split; [| done].
    apply getPiece_out_of_bounds.
Qed.

Lemma stale_selection_is_no_selection_witness :
  let own := mkWorld newGame (Some (mkRoom "me")) (Some PWhite) "me" [] in
  let pawn := mkServerPiece "pawn" white 6 4 false in
  selectedPiece (chessGame
    (updateFromServer (mkRoomState [pawn] white "playing" "other" 6 4) own).2) = None
  ∧ selectedPiece (chessGame
      (updateFromServer (mkRoomState [pawn] white "playing" "me" 9 4) own).2) = None
  ∧ selectedPiece (chessGame
      (updateFromServer (mkRoomState [pawn] white "playing" "me" 5 4) own).2) = None.
Proof.
  intros own pawn. split; [| split].
  - destruct (stale_selection_is_no_selection
                (mkRoomState [pawn] white "playing" "other" 6 4) own) as [Hother _].
    apply Hother. discriminate.
  - destruct (stale_selection_is_no_selection
                (mkRoomState [pawn] white "playing" "me" 9 4) own) as [_ Hown].
    destruct (Hown eq_refl) as (_ & Hoff & _). apply Hoff. reflexivity.
  - destruct (stale_selection_is_no_selection
                (mkRoomState [pawn] white "playing" "me" 5 4) own) as [_ Hown].
    destruct (Hown eq_refl) as (_ & _ & Hempty). apply Hempty. reflexivity.
Defined.

(** C6. [selectPiece] and [makeMove], whether they succeed or fail, leave the
    board, the turn, the status and the selection as they were; so do the
    other methods of the controller apart from [updateFromServer]
    ([deselectPiece], [getValidMovesForSelected], [canPlayerAct]).  The only
    thing a call may change is the list of messages sent. *)
Theorem intents_leave_state_unchanged (w : World) (r c : Z) :
  (∃ msgs, (selectPiece r c w).2 = withSent w msgs)
  ∧ (∃ msgs, (makeMove r c w).2 = withSent w msgs)
  ∧ (∃ msgs, (deselectPiece w).2 = withSent w msgs)
  ∧ (getValidMovesForSelected w).2 = w
  ∧ (canPlayerAct w).2 = w
  ∧ chessGame (selectPiece r c w).2 = chessGame w
  ∧ chessGame (makeMove r c w).2 = chessGame w.
Proof.
  assert (∀ ok : bool, (ok, w).2 = withSent w []) as Hsame
    by (intros; by rewrite withSent_nil).
  assert (∃ msgs, (selectPiece r c w).2 = withSent w msgs) as Hsel.
  { rewrite selectPiece_run.
    destruct (getPiece _ r c) as [piece|]; [| by exists []].
    destruct (negb _ || negb _); [by exists [] | by eexists]. }
  assert (∃ msgs, (makeMove r c w).2 = withSent w msgs) as Hmove.
  { rewrite makeMove_run.
    destruct (selectedPiece _) as [piece|]; [| by exists []].
    destruct (bool_decide _); [by exists [] |].
    destruct (isValidMove _ r c); [by eexists | by exists []]. }
  split; [done |]. split; [done |]. split.
  { unfold deselectPiece. rewrite sendIfRoom_run. by eexists. }
  split; [by rewrite getValidMovesForSelected_run |].
  split; [done |].
  destruct Hsel as [m1 ->], Hmove as [m2 ->]. done.
Qed.

(** ** Gating of the intents *)

Lemma canPlayerAct_spec w :
  (canPlayerAct w).1 = true ↔
    playerColor w ≠ Some PSpectator
    ∧ playerColor w = Some (roleOf (currentPlayer (chessGame w)))
    ∧ gameStatus (chessGame w) = "playing".
Proof.
  run. rewrite !andb_true_iff, negb_true_iff, bool_decide_eq_false,
    isPlayerColor_spec, String.eqb_eq. tauto.
Qed.

(** The method [selectPiece] on its own, in any state: it returns true
    exactly when a piece stands on the clicked square, its colour is the own
    role, and it is that role's turn; it does not read the game status, which
    its caller [handlePieceClick] tests through [canPlayerAct] first.  When
    it returns false the state is untouched and nothing is sent; when it
    returns true one select message carrying the coordinates is handed to
    the room, if there is one. *)
Lemma selectPiece_gate (w : World) (r c : Z) :
  let res := selectPiece r c w in
  let ownPieceAt :=
    ∃ piece, getPiece (board (chessGame w)) r c = Some piece
             ∧ playerColor w = Some (roleOf (piece_color piece)) in
  (res.1 = true ↔
     ownPieceAt
     ∧ playerColor w ≠ Some PSpectator
     ∧ playerColor w = Some (roleOf (currentPlayer (chessGame w))))
  ∧ (gameStatus (chessGame w) = "playing" →
       (res.1 = true ↔ (canPlayerAct w).1 = true ∧ ownPieceAt))
  ∧ (res.1 = false → res.2 = w)
  ∧ (res.1 = true →
       res.2 = withSent w
                 match room w with Some _ => [MsgSelect r c] | None => [] end).
Proof.
  intros res ownPieceAt.
  assert (res.1 = true ↔
            ownPieceAt
            ∧ playerColor w ≠ Some PSpectator
            ∧ playerColor w = Some (roleOf (currentPlayer (chessGame w)))) as Hok.
  { subst res ownPieceAt. rewrite selectPiece_run.
    destruct (getPiece _ r c) as [piece|]; [| naive_solver].
    destruct (isPlayerColor (piece_color piece) _) eqn:Hp;
      destruct (isPlayerColor (currentPlayer _) _) eqn:Ht; simpl;
      try apply isPlayerColor_spec in Hp; try apply isPlayerColor_spec in Ht.
    - split; [intros _ | done]. split; [by exists piece |]. split; [| done].
      rewrite Ht. by destruct (currentPlayer _).
    - split; [done |]. intros (_ & _ & Heq).
      apply isPlayerColor_spec in Heq. congruence.
    - split; [done |]. intros ((q & [= <-] & Heq) & _).
      apply isPlayerColor_spec in Heq. congruence.
    - split; [done |]. intros (_ & _ & Heq).
      apply isPlayerColor_spec in Heq. congruence. }
  split; [done |]. split.
  { intros Hst. rewrite Hok, canPlayerAct_spec. naive_solver. }
  subst res. rewrite selectPiece_run.
  destruct (getPiece _ r c) as [piece|]; [| done].
  by destruct (negb _ || negb _).
Qed.

Lemma selectPiece_gate_witness :
  let w := mkWorld (mkGame boardLonePawn white None "playing")
             (Some (mkRoom "me")) (Some PWhite) "me" [] in
  (selectPiece 6 4 w).1 = true
  ∧ (selectPiece 6 4 w).2 = withSent w [MsgSelect 6 4]
  ∧ (selectPiece 5 4 w).2 = w.
Proof.
  intros w.
  destruct (selectPiece_gate w 6 4) as (_ & Hplaying & _ & Hsent).
  destruct (selectPiece_gate w 5 4) as (_ & _ & Hfail & _).
  assert ((selectPiece 6 4 w).1 = true) as Hok.
  { apply Hplaying; [reflexivity |]. split; [reflexivity |].
    exists examplePawn. split; reflexivity. }
  split; [exact Hok |]. split; [exact (Hsent Hok) | apply Hfail; reflexivity].
Defined.

(** The method [makeMove] on its own, in any state: it returns true exactly
    when there is a local selection, the own role is not spectator, and the
    target square is among [getValidMovesForSelected]; otherwise it returns
    false, the state is untouched and nothing is sent.  When it returns true
    a move message carrying the selected piece's row and column and the
    target is handed to the room, if there is one. *)
Lemma makeMove_gate (w : World) (toRow toCol : Z) :
  let res := makeMove toRow toCol w in
  (res.1 = true ↔
     (∃ piece, selectedPiece (chessGame w) = Some piece)
     ∧ playerColor w ≠ Some PSpectator
     ∧ mkPos toRow toCol ∈ (getValidMovesForSelected w).1)
  ∧ (res.1 = false → res.2 = w)
  ∧ (res.1 = true →
       ∃ piece, selectedPiece (chessGame w) = Some piece
         ∧ res.2 = withSent w
             match room w with
             | Some _ => [MsgMove (piece_row piece) (piece_col piece) toRow toCol]
             | None => []
             end).
Proof.
  intros res. subst res.
  rewrite makeMove_run, getValidMovesForSelected_run. simpl.
  destruct (selectedPiece (chessGame w)) as [piece|].
  - case_bool_decide as Hspec; [simpl; naive_solver |].
    destruct (isValidMove _ toRow toCol) eqn:Hv; simpl.
    + apply isValidMove_elem in Hv. naive_solver.
    + split; [| done]. split; [done |]. intros (_ & _ & Hin).
      apply isValidMove_elem in Hin. congruence.
  - simpl. split; [| done]. split; [done |]. by intros ([q [=]] & _).
Qed.

Lemma makeMove_gate_witness :
  let w := mkWorld (mkGame boardLonePawn white (Some examplePawn) "playing")
             (Some (mkRoom "me")) (Some PWhite) "me" [] in
  (makeMove 4 4 w).1 = true
  ∧ (makeMove 4 4 w).2 = withSent w [MsgMove 6 4 4 4]
  ∧ (makeMove 3 4 w).2 = w.
Proof.
  intros w.
  destruct (makeMove_gate w 4 4) as (Hiff & _ & Hsent).
  destruct (makeMove_gate w 3 4) as (_ & Hfail & _).
  assert ((makeMove 4 4 w).1 = true) as Hok.
  { apply Hiff. split; [by exists examplePawn |]. split; [discriminate |].
    vm_compute. apply list_elem_of_further, list_elem_of_here. }
  split; [exact Hok |]. split; [| apply Hfail; reflexivity].
  destruct (Hsent Hok) as (piece & [= <-] & Heq). exact Heq.
Defined.

(** * Further properties of the rule table *)

(** The square [k] steps from the piece in direction [dir]. *)
Definition target (this : Piece) (dir : Pos) (k : Z) : Pos :=
  mkPos (piece_row this + row dir * k) (piece_col this + col dir * k).

(** Steps [i], ..., [k - 1] in direction [dir] are on the board and empty. *)
Definition clearPath (this : Piece) (b : ChessBoard) (dir : Pos) (i k : Z) : Prop :=
  ∀ j, i ≤ j < k →
    isValidPosition (target this dir j) = true
    ∧ getPiece b (row (target this dir j)) (col (target this dir j)) = None.

(** A square the piece may land on: on the board, and empty or held by a
    piece of the other colour. *)
Definition landable (this : Piece) (b : ChessBoard) (pos : Pos) : Prop :=
  isValidPosition pos = true
  ∧ ∀ q, getPiece b (row pos) (col pos) = Some q → piece_color q ≠ piece_color this.

(** The eight unit directions. *)
Definition unitDirection (dir : Pos) : Prop :=
  -1 ≤ row dir ≤ 1 ∧ -1 ≤ col dir ≤ 1 ∧ (row dir ≠ 0 ∨ col dir ≠ 0).

Lemma stepTo_landable this b move pos :
  pos ∈ stepTo this b move ↔ pos = move ∧ landable this b move.
Proof.
  rewrite stepTo_elem. unfold landable.
  destruct (getPiece b (row move) (col move)) as [q|]; naive_solver.
Qed.

(** Exactly which squares one run of the inner loop returns. *)
Lemma ray_elem this b dir n i pos :
  pos ∈ ray this b dir n i ↔
    ∃ k, i ≤ k < i + Z.of_nat n ∧ pos = target this dir k
         ∧ clearPath this b dir i k ∧ landable this b (target this dir k).
Proof.
  revert i. induction n as [| n IH]; intros i.
  { simpl. rewrite elem_of_nil. split; [done |]. intros (k & Hk & _). lia. }
  cbn [ray]. fold (target this dir i).
  destruct (isValidPosition (target this dir i)) eqn:Hv; cbn [negb].
  - destruct (getPiece b (row (target this dir i)) (col (target this dir i)))
      as [q|] eqn:Hq.
    + assert (∀ k, i < k → ¬ clearPath this b dir i k) as Hblocked.
      { intros k Hk Hpath. destruct (Hpath i) as [_ He]; [lia | congruence]. }
      unfold isOpponent. case_bool_decide as Hopp.
      * rewrite list_elem_of_singleton. split.
        -- intros ->. exists i. split; [lia |]. split; [done |].
           split; [intros j Hj; lia |]. split; [done |].
           intros q' Hq'. congruence.
        -- intros (k & Hk & -> & Hpath & _).
           destruct (decide (k = i)) as [-> | Hne]; [done |].
           exfalso. apply (Hblocked k); [lia | done].
      * rewrite elem_of_nil. split; [done |].
        intros (k & Hk & -> & Hpath & _ & Hland).
        destruct (decide (k = i)) as [-> | Hne].
        -- exact (Hland q Hq (eq_sym Hopp)).
        -- apply (Hblocked k); [lia | done].
    + rewrite elem_of_cons, IH. split.
      * intros [-> | (k & Hk & -> & Hpath & Hland)].
        -- exists i. split; [lia |]. split; [done |].
           split; [intros j Hj; lia |]. split; [done |]. intros q' Hq'. congruence.
        -- exists k. split; [lia |]. split; [done |]. split; [| done].
           intros j Hj. destruct (decide (j = i)) as [-> | Hne]; [done |].
           apply Hpath. lia.
      * intros (k & Hk & -> & Hpath & Hland).
        destruct (decide (k = i)) as [-> | Hne]; [by left |].
        right. exists k. split; [lia |]. split; [done |]. split; [| done].
        intros j Hj. apply Hpath. lia.
  - rewrite elem_of_nil. split; [done |].
    intros (k & Hk & -> & Hpath & Hvk & _).
    destruct (decide (k = i)) as [-> | Hne]; [congruence |].
    destruct (Hpath i) as [Hvi _]; [lia | congruence].
Qed.

Lemma slide_elem this b directions pos :
  pos ∈ slide this b directions ↔
    ∃ dir k, dir ∈ directions ∧ 1 ≤ k ≤ 9 ∧ pos = target this dir k
             ∧ clearPath this b dir 1 k ∧ landable this b pos.
Proof.
  unfold slide. rewrite list_elem_of_bind. split.
  - intros (dir & Hin & Hdir). apply ray_elem in Hin as (k & Hk & -> & Hp & Hl).
    exists dir, k. split; [done |]. split; [lia |]. by split.
  - intros (dir & k & Hdir & Hk & -> & Hp & Hl). exists dir. split; [| done].
    apply ray_elem. exists k. split; [lia |]. by split.
Qed.

(** Once the squares from step [i + n] on are off the board, more turns of
    the loop add nothing. *)
Lemma ray_fuel this b dir n m i :
  (∀ k, i + Z.of_nat n ≤ k → isValidPosition (target this dir k) = false) →
  ray this b dir (n + m) i = ray this b dir n i.
Proof.
  revert i. induction n as [| n IH]; intros i Hoff.
  - simpl. destruct m as [| m]; [done |]. cbn [ray]. fold (target this dir i).
    rewrite Hoff by lia. done.
  - cbn [Nat.add ray]. rewrite IH; [done |]. intros k Hk. apply Hoff. lia.
Qed.

Lemma unitDirection_rook dir : dir ∈ rookDirections → unitDirection dir.
Proof.
  unfold rookDirections, unitDirection. rewrite !elem_of_cons, elem_of_nil.
  intros [-> | [-> | [-> | [-> | []]]]]; simpl; lia.
Qed.

Lemma unitDirection_bishop dir : dir ∈ bishopDirections → unitDirection dir.
Proof.
  unfold bishopDirections, unitDirection. rewrite !elem_of_cons, elem_of_nil.
  intros [-> | [-> | [-> | [-> | []]]]]; simpl; lia.
Qed.

Lemma target_off_board this dir k :
  isValidPosition (mkPos (piece_row this) (piece_col this)) = true →
  unitDirection dir → 10 ≤ k →
  isValidPosition (target this dir k) = false.
Proof.
  intros Hon (Hr & Hc & Hnz) Hk. apply isValidPosition_spec in Hon. simpl in Hon.
  apply isValidPosition_false. unfold target. simpl. nia.
Qed.

Lemma target_moves this dir k :
  unitDirection dir → 1 ≤ k →
  target this dir k ≠ mkPos (piece_row this) (piece_col this).
Proof. intros (Hr & Hc & Hnz) Hk [= H1 H2]. nia. Qed.

Lemma landable_same_color this that b pos :
  piece_color this = piece_color that → landable this b pos → landable that b pos.
Proof. unfold landable. intros <-. done. Qed.

Lemma target_same_square this that dir k :
  piece_row this = piece_row that → piece_col this = piece_col that →
  target this dir k = target that dir k.
Proof. unfold target. by intros -> ->. Qed.

Lemma knightMoves_elem this b pos :
  pos ∈ knightMoves this b ↔
    landable this b pos
    ∧ ((Z.abs (row pos - piece_row this) = 2 ∧ Z.abs (col pos - piece_col this) = 1)
       ∨ (Z.abs (row pos - piece_row this) = 1 ∧ Z.abs (col pos - piece_col this) = 2)).
Proof.
  unfold knightMoves. cbv zeta. rewrite list_elem_of_bind.
  setoid_rewrite stepTo_landable. split.
  - intros (move & [-> Hland] & Hin). split; [done |].
    rewrite !elem_of_cons, elem_of_nil in Hin.
    destruct Hin as [-> | [-> | [-> | [-> | [-> | [-> | [-> | [-> | []]]]]]]]];
      simpl; lia.
  - intros [Hland Hgeo]. exists pos. split; [done |]. destruct pos as [pr pc].
    simpl in Hgeo. rewrite !elem_of_cons, elem_of_nil.
    assert (∀ a b c d : Z, a = c → b = d → mkPos a b = mkPos c d) as Heq
      by (by intros ???? -> ->).
    destruct (Z.abs_spec (pr - piece_row this)) as [[_ Hr] | [_ Hr]],
             (Z.abs_spec (pc - piece_col this)) as [[_ Hc] | [_ Hc]];
      rewrite Hr, Hc in Hgeo; destruct Hgeo as [[H1 H2] | [H1 H2]].
    all: first
      [ left; apply Heq; lia
      | right; left; apply Heq; lia
      | do 2 right; left; apply Heq; lia
      | do 3 right; left; apply Heq; lia
      | do 4 right; left; apply Heq; lia
      | do 5 right; left; apply Heq; lia
      | do 6 right; left; apply Heq; lia
      | do 7 right; left; apply Heq; lia ].
Qed.

(** The loop shared by [King.getValidMoves] and [Mann.getValidMoves]. *)
Lemma kingStep_elem this b pos :
  pos ∈ kingDirections ≫=
          (λ dir, stepTo this b
                    (mkPos (piece_row this + row dir) (piece_col this + col dir))) ↔
    landable this b pos
    ∧ Z.max (Z.abs (row pos - piece_row this)) (Z.abs (col pos - piece_col this)) = 1.
Proof.
  rewrite list_elem_of_bind. setoid_rewrite stepTo_landable. split.
  - intros (dir & [-> Hland] & Hin). split; [done |].
    unfold kingDirections in Hin. rewrite !elem_of_cons, elem_of_nil in Hin.
    destruct Hin as [-> | [-> | [-> | [-> | [-> | [-> | [-> | [-> | []]]]]]]]];
      simpl; lia.
  - intros [Hland Hgeo]. destruct pos as [pr pc]. simpl in Hgeo.
    exists (mkPos (pr - piece_row this) (pc - piece_col this)). simpl.
    replace (piece_row this + (pr - piece_row this)) with pr by lia.
    replace (piece_col this + (pc - piece_col this)) with pc by lia.
    split; [done |]. unfold kingDirections. rewrite !elem_of_cons, elem_of_nil.
    assert (∀ a b c d : Z, a = c → b = d → mkPos a b = mkPos c d) as Heq
      by (by intros ???? -> ->).
    assert (pr = piece_row this - 1 ∨ pr = piece_row this ∨ pr = piece_row this + 1)
      as Hr by lia.
    assert (pc = piece_col this - 1 ∨ pc = piece_col this ∨ pc = piece_col this + 1)
      as Hc by lia.
    destruct Hr as [Hr | [Hr | Hr]], Hc as [Hc | [Hc | Hc]].
    all: first
      [ exfalso; lia
      | left; apply Heq; lia
      | right; left; apply Heq; lia
      | do 2 right; left; apply Heq; lia
      | do 3 right; left; apply Heq; lia
      | do 4 right; left; apply Heq; lia
      | do 5 right; left; apply Heq; lia
      | do 6 right; left; apply Heq; lia
      | do 7 right; left; apply Heq; lia ].
Qed.

(** Rook and bishop: a square is returned exactly when it lies [k] steps
    (1 to 9) along one of the piece's four directions, every square before
    it on that line is on the board and empty, and the square itself is on
    the board and empty or held by the other colour.  So a ray includes the
    first opposing piece, excludes the first own piece, and goes no
    further. *)
Theorem sliding_moves_rule (color : Color) (r c : Z) (hasMoved : bool)
    (b : ChessBoard) (pos : Pos) :
  let along (directions : list Pos) :=
    ∃ dir k, dir ∈ directions ∧ 1 ≤ k ≤ 9
      ∧ pos = mkPos (r + row dir * k) (c + col dir * k)
      ∧ (∀ j, 1 ≤ j < k →
           isValidPosition (mkPos (r + row dir * j) (c + col dir * j)) = true
           ∧ getPiece b (r + row dir * j) (c + col dir * j) = None)
      ∧ isValidPosition pos = true
      ∧ (∀ q, getPiece b (row pos) (col pos) = Some q → piece_color q ≠ color) in
  (pos ∈ getValidMoves (mkPiece Rook color r c hasMoved) b ↔
     along [mkPos 0 1; mkPos 0 (-1); mkPos 1 0; mkPos (-1) 0])
  ∧ (pos ∈ getValidMoves (mkPiece Bishop color r c hasMoved) b ↔
       along [mkPos 1 1; mkPos 1 (-1); mkPos (-1) 1; mkPos (-1) (-1)]).
Proof.
  intros along. split; unfold getValidMoves; simpl;
    [unfold rookMoves | unfold bishopMoves]; by rewrite slide_elem.
Qed.

(** For a rook, bishop or queen standing on the board the bound [i < 10] of
    the inner loop never cuts a ray short: running the loop for any number
    of further turns returns the same squares.  Off the board it can: from
    (3,-1) a tenth turn to the right would add (3,9). *)
Theorem ray_bound_suffices :
  (∀ (this : Piece) (b : ChessBoard) (dir : Pos) (more : nat),
     isValidPosition (mkPos (piece_row this) (piece_col this)) = true →
     dir ∈ rookDirections ++ bishopDirections →
     ray this b dir (9 + more) 1 = ray this b dir 9 1)
  ∧ ray (mkPiece Rook white 3 (-1) false) emptyBoard (mkPos 0 1) 10 1
      ≠ ray (mkPiece Rook white 3 (-1) false) emptyBoard (mkPos 0 1) 9 1.
Proof.
  split; [| by vm_compute].
  intros this b dir more Hon Hdir. apply ray_fuel. intros k Hk.
  apply target_off_board; [done | | lia].
  apply elem_of_app in Hdir as [Hd | Hd];
    [by apply unitDirection_rook | by apply unitDirection_bishop].
Qed.

Lemma ray_bound_suffices_witness :
  ray (mkPiece Rook white 3 0 false) emptyBoard (mkPos 0 1) (9 + 5) 1
    = ray (mkPiece Rook white 3 0 false) emptyBoard (mkPos 0 1) 9 1.
Proof.
  destruct ray_bound_suffices as [Hbound _].
  apply (Hbound (mkPiece Rook white 3 0 false) emptyBoard (mkPos 0 1) 5%nat).
  - reflexivity.
  - apply list_elem_of_here.
Defined.

Lemma slide_lands this b directions pos :
  (∀ dir, dir ∈ directions → unitDirection dir) →
  pos ∈ slide this b directions →
  landable this b pos ∧ pos ≠ mkPos (piece_row this) (piece_col this).
Proof.
  intros Hunit (dir & k & Hdir & Hk & -> & _ & Hland)%slide_elem.
  split; [done |]. apply target_moves; [by apply Hunit | lia].
Qed.

Lemma getValidMoves_lands this b pos :
  pos ∈ getValidMoves this b →
  landable this b pos ∧ pos ≠ mkPos (piece_row this) (piece_col this).
Proof.
  unfold getValidMoves. destruct (piece_kind this).
  - intros Hin. apply pawnMoves_elem in Hin. cbv zeta in Hin.
    assert (direction (piece_color this) = -1 ∨ direction (piece_color this) = 1)
      as Hd by (unfold direction; case_decide; lia).
    destruct Hin as [(-> & Hv & He) | [(-> & _ & _ & _ & Hv & He)
                    | (dc & Hdc & -> & Hv & q & Hq & Hne)]].
    + split; [| intros [=]; lia]. split; [done |]. intros q Hq. congruence.
    + split; [| intros [=]; lia]. split; [done |]. intros q Hq. congruence.
    + split; [| intros [=]; lia]. split; [done |].
      intros q' Hq'. simpl in *. by simplify_eq.
  - apply slide_lands, unitDirection_rook.
  - intros [Hland Hgeo]%knightMoves_elem. split; [done |]. intros ->.
    simpl in Hgeo. lia.
  - apply slide_lands, unitDirection_bishop.
  - unfold queenMoves. cbv zeta. rewrite elem_of_app.
    intros [[Hl Hne]%slide_lands | [Hl Hne]%slide_lands];
      try apply unitDirection_rook; try apply unitDirection_bishop;
      (split; [by eapply landable_same_color; [| exact Hl] | done]).
  - unfold kingMoves. intros [Hland Hgeo]%kingStep_elem. split; [done |].
    intros ->. simpl in Hgeo. lia.
  - unfold mannMoves. intros [Hland Hgeo]%kingStep_elem. split; [done |].
    intros ->. simpl in Hgeo. lia.
Qed.

(** For every kind of piece: no returned square is the piece's own square,
    and no returned square holds a piece of the mover's colour. *)
Theorem moves_never_stay_nor_take_own (this : Piece) (b : ChessBoard) :
  Forall (λ pos,
            pos ≠ mkPos (piece_row this) (piece_col this)
            ∧ ∀ q, getPiece b (row pos) (col pos) = Some q →
                   piece_color q ≠ piece_color this)
    (getValidMoves this b).
Proof.
  apply Forall_forall. intros pos [[_ Hland] Hne]%getValidMoves_lands. done.
Qed.

(** Knight: the returned squares are exactly the squares on the board, empty
    or held by the other colour, that lie two rows and one column, or one row
    and two columns, away. *)
Theorem knight_moves_rule (color : Color) (r c : Z) (hasMoved : bool)
    (b : ChessBoard) (pos : Pos) :
  pos ∈ getValidMoves (mkPiece Knight color r c hasMoved) b ↔
    (isValidPosition pos = true
     ∧ ∀ q, getPiece b (row pos) (col pos) = Some q → piece_color q ≠ color)
    ∧ ((Z.abs (row pos - r) = 2 ∧ Z.abs (col pos - c) = 1)
       ∨ (Z.abs (row pos - r) = 1 ∧ Z.abs (col pos - c) = 2)).
Proof. unfold getValidMoves. simpl. by rewrite knightMoves_elem. Qed.

(** King and mann: the returned squares are exactly the squares on the
    board, empty or held by the other colour, at distance one (rows and
    columns differ by at most one, not both by zero); a king and a mann of
    one colour on one square get the same list. *)
Theorem king_mann_moves_rule (color : Color) (r c : Z) (movedK movedM : bool)
    (b : ChessBoard) :
  (∀ pos,
     pos ∈ getValidMoves (mkPiece King color r c movedK) b ↔
       (isValidPosition pos = true
        ∧ ∀ q, getPiece b (row pos) (col pos) = Some q → piece_color q ≠ color)
       ∧ Z.max (Z.abs (row pos - r)) (Z.abs (col pos - c)) = 1)
  ∧ getValidMoves (mkPiece Mann color r c movedM) b
      = getValidMoves (mkPiece King color r c movedK) b.
Proof.
  split; [| done]. intros pos.
  change (getValidMoves (mkPiece King color r c movedK) b)
    with (kingMoves (mkPiece King color r c movedK) b).
  unfold kingMoves. by rewrite kingStep_elem.
Qed.

(** ** No square is returned twice *)

Lemma unitDirection_cases dir :
  unitDirection dir →
  (row dir = -1 ∨ row dir = 0 ∨ row dir = 1)
  ∧ (col dir = -1 ∨ col dir = 0 ∨ col dir = 1)
  ∧ (row dir ≠ 0 ∨ col dir ≠ 0).
Proof. unfold unitDirection. lia. Qed.

Lemma target_inj this dir k k' :
  unitDirection dir → target this dir k = target this dir k' → k = k'.
Proof.
  intros (Hr & Hc & Hnz)%unitDirection_cases [= H1 H2].
  destruct Hr as [Hr | [Hr | Hr]], Hc as [Hc | [Hc | Hc]];
    rewrite Hr in *; rewrite Hc in *; lia.
Qed.

Lemma target_dir_inj this d1 d2 k1 k2 :
  unitDirection d1 → unitDirection d2 → 1 ≤ k1 → 1 ≤ k2 →
  target this d1 k1 = target this d2 k2 → d1 = d2.
Proof.
  intros (Hr1 & Hc1 & Hnz1)%unitDirection_cases
         (Hr2 & Hc2 & Hnz2)%unitDirection_cases Hk1 Hk2 [= H1 H2].
  destruct d1 as [r1 c1], d2 as [r2 c2]. simpl in *.
  destruct Hr1 as [-> | [-> | ->]], Hc1 as [-> | [-> | ->]],
           Hr2 as [-> | [-> | ->]], Hc2 as [-> | [-> | ->]];
    first [done | exfalso; lia].
Qed.

Lemma ray_NoDup this b dir n i : unitDirection dir → NoDup (ray this b dir n i).
Proof.
  intros Hunit. revert i. induction n as [| n IH]; intros i; [apply NoDup_nil_2 |].
  cbn [ray]. fold (target this dir i).
  destruct (negb _); [apply NoDup_nil_2 |].
  destruct (getPiece b _ _) as [q|].
  - destruct (isOpponent this q); [apply NoDup_singleton | apply NoDup_nil_2].
  - apply NoDup_cons. split; [| apply IH].
    intros (k & Hk & Heq & _)%ray_elem.
    apply target_inj in Heq; [lia | done].
Qed.

Lemma slide_NoDup this b directions :
  NoDup directions → (∀ dir, dir ∈ directions → unitDirection dir) →
  NoDup (slide this b directions).
Proof.
  intros Hnd Hunit. unfold slide. apply NoDup_bind; [| | done].
  - intros d1 d2 pos Hd1 Hd2 (k1 & Hk1 & -> & _)%ray_elem (k2 & Hk2 & Heq & _)%ray_elem.
    eapply (target_dir_inj this d1 d2 k1 k2); [by apply Hunit | by apply Hunit | lia | lia | done].
  - intros dir Hdir. by apply ray_NoDup, Hunit.
Qed.

Lemma stepTo_bind_NoDup this b (moves : list Pos) :
  NoDup moves → NoDup (moves ≫= stepTo this b).
Proof.
  intros Hnd. apply NoDup_bind; [| | done].
  - intros m1 m2 pos _ _ [-> _]%stepTo_landable [-> _]%stepTo_landable. done.
  - intros m _. unfold stepTo. destruct (isValidPosition m); [| apply NoDup_nil_2].
    destruct (getPiece b _ _) as [q|]; [| apply NoDup_singleton].
    destruct (isOpponent this q); [apply NoDup_singleton | apply NoDup_nil_2].
Qed.

(** Distinctness of an explicit list of squares with symbolic coordinates. *)
Ltac distinct_squares :=
  repeat (apply NoDup_cons; split;
    [ rewrite ?elem_of_cons, elem_of_nil; intros Hin;
      repeat (destruct Hin as [Hin | Hin]; [injection Hin; lia |]); done |]);
  apply NoDup_nil_2.

Lemma slideDirections_NoDup : NoDup (rookDirections ++ bishopDirections).
Proof. unfold rookDirections, bishopDirections. simpl. distinct_squares. Qed.

Lemma getValidMoves_NoDup this b : NoDup (getValidMoves this b).
Proof.
  unfold getValidMoves. destruct (piece_kind this).
  - unfold pawnMoves. cbv zeta.
    assert (direction (piece_color this) = -1 ∨ direction (piece_color this) = 1)
      as Hd by (unfold direction; case_decide; lia).
    apply NoDup_app. split; [| split].
    + destruct (_ && _); [| apply NoDup_nil_2].
      case_decide; [| apply NoDup_singleton].
      destruct (_ && _); [| apply NoDup_singleton]. distinct_squares.
    + intros pos Hfwd (cap & [-> _]%pawnCapture_elem & Hcap)%list_elem_of_bind.
      assert (col cap = piece_col this) as Hcol.
      { destruct (_ && _); [| by apply elem_of_nil in Hfwd].
        apply elem_of_cons in Hfwd as [-> | Hfwd]; [done |].
        case_decide; [| by apply elem_of_nil in Hfwd].
        destruct (_ && _); [| by apply elem_of_nil in Hfwd].
        by apply list_elem_of_singleton in Hfwd as ->. }
      rewrite !elem_of_cons, elem_of_nil in Hcap.
      destruct Hcap as [-> | [-> | []]]; simpl in Hcol; lia.
    + apply NoDup_bind.
      * intros c1 c2 pos _ _ [-> _]%pawnCapture_elem [-> _]%pawnCapture_elem. done.
      * intros cap _. unfold pawnCapture.
        destruct (isValidPosition cap); [| apply NoDup_nil_2].
        destruct (getPiece b _ _) as [q|]; [| apply NoDup_nil_2].
        destruct (isOpponent this q); [apply NoDup_singleton | apply NoDup_nil_2].
      * distinct_squares.
  - apply slide_NoDup; [| apply unitDirection_rook].
    unfold rookDirections. distinct_squares.
  - unfold knightMoves. cbv zeta. apply stepTo_bind_NoDup. distinct_squares.
  - apply slide_NoDup; [| apply unitDirection_bishop].
    unfold bishopDirections. distinct_squares.
  - unfold queenMoves, rookMoves, bishopMoves, slide. cbv zeta.
    rewrite <- bind_app.
    apply (slide_NoDup _ b (rookDirections ++ bishopDirections));
      [apply slideDirections_NoDup |].
    intros dir [Hd | Hd]%elem_of_app;
      [by apply unitDirection_rook | by apply unitDirection_bishop].
  - unfold kingMoves.
    apply NoDup_bind.
    + intros d1 d2 pos Hd1 Hd2 [-> _]%stepTo_landable [Heq _]%stepTo_landable.
      injection Heq as H1 H2. destruct d1, d2. simpl in *. f_equal; lia.
    + intros dir _. unfold stepTo. destruct (isValidPosition _); [| apply NoDup_nil_2].
      destruct (getPiece b _ _) as [q|]; [| apply NoDup_singleton].
      destruct (isOpponent this q); [apply NoDup_singleton | apply NoDup_nil_2].
    + unfold kingDirections. distinct_squares.
  - unfold mannMoves. apply NoDup_bind.
    + intros d1 d2 pos Hd1 Hd2 [-> _]%stepTo_landable [Heq _]%stepTo_landable.
      injection Heq as H1 H2. destruct d1, d2. simpl in *. f_equal; lia.
    + intros dir _. unfold stepTo. destruct (isValidPosition _); [| apply NoDup_nil_2].
      destruct (getPiece b _ _) as [q|]; [| apply NoDup_singleton].
      destruct (isOpponent this q); [apply NoDup_singleton | apply NoDup_nil_2].
    + unfold kingDirections. distinct_squares.
Qed.

(** For every kind of piece, on every board, the list returned by
    [getValidMoves] names no square twice (for the queen: the rook's and the
    bishop's squares never coincide). *)
Theorem moves_are_distinct (this : Piece) (b : ChessBoard) :
  NoDup (getValidMoves this b)
  ∧ length (getValidMoves this b) = size (list_to_set (C := gset Pos) (getValidMoves this b)).
Proof.
  pose proof (getValidMoves_NoDup this b) as Hnd. split; [done |].
  by rewrite size_list_to_set.
Qed.

(** * Further properties of the board *)

Lemma getPiece_setPiece b r c x r' c' :
  board_wf b → isValidPosition (mkPos r c) = true →
  getPiece (setPiece b r c x) r' c' =
    if decide (r' = r ∧ c' = c) then stamp r c <$> x else getPiece b r' c'.
Proof.
  intros Hwf Hv. destruct (isValidPosition (mkPos r' c')) eqn:Hv'.
  - rewrite !getPiece_cell, cell_setPiece by done.
    apply isValidPosition_spec in Hv, Hv'. simpl in Hv, Hv'.
    destruct (decide (r' = r ∧ c' = c)) as [[-> ->] | Hne].
    + by rewrite decide_True.
    + rewrite decide_False; [done |]. intros [H1 H2]. apply Hne. lia.
  - rewrite !getPiece_out_of_bounds by done.
    rewrite decide_False; [done |]. intros [-> ->]. congruence.
Qed.

(** Writing then reading the grid.  On a grid of the shape the class keeps
    (8 rows of 10 cells), let [setPiece] write, at a square on the board,
    nothing or a piece that stands on no other square of the grid (as the
    fresh piece of a snapshot entry does; [setPiece] assigns to the fields of
    the object it is handed, so an object standing elsewhere too would change
    there as well).  Then [getPiece] at that square returns the piece
    written, with its row and column fields set to the square (or nothing,
    when nothing was written), every other square reads as before, and the
    grid keeps its shape. *)
Theorem setPiece_then_getPiece (b : ChessBoard) (r c : Z) (piece : option Piece)
    (r' c' : Z) :
  board_wf b → isValidPosition (mkPos r c) = true →
  (∀ p r0 c0, piece = Some p → getPiece b r0 c0 = Some p → (r0, c0) = (r, c)) →
  getPiece (setPiece b r c piece) r c
    = (λ p, mkPiece (piece_kind p) (piece_color p) r c (piece_hasMoved p)) <$> piece
  ∧ ((r', c') ≠ (r, c) → getPiece (setPiece b r c piece) r' c' = getPiece b r' c')
  ∧ board_wf (setPiece b r c piece).
Proof.
  intros Hwf Hv _. split; [| split].
  - rewrite getPiece_setPiece by done. by rewrite decide_True.
  - intros Hne. rewrite getPiece_setPiece by done.
    rewrite decide_False; [done |]. intros [-> ->]. done.
  - by apply setPiece_wf.
Qed.

Lemma setPiece_then_getPiece_witness :
  getPiece (setPiece boardLonePawn 2 9 (Some (mkPiece Rook black 0 0 true))) 2 9
    = Some (mkPiece Rook black 2 9 true)
  ∧ getPiece (setPiece boardLonePawn 2 9 (Some (mkPiece Rook black 0 0 true))) 6 4
    = Some examplePawn.
Proof.
  assert (board_wf boardLonePawn) as Hwf by (apply setPiece_wf, emptyBoard_wf).
  assert (∀ p r0 c0, Some (mkPiece Rook black 0 0 true) = Some p →
            getPiece boardLonePawn r0 c0 = Some p → (r0, c0) = (2, 9)) as Hfresh.
  { intros p r0 c0 [= <-] Hp. exfalso. unfold boardLonePawn in Hp.
    rewrite getPiece_setPiece in Hp by (apply emptyBoard_wf || reflexivity).
    case_decide; [discriminate Hp |]. unfold getPiece in Hp.
    destruct (negb _); [discriminate Hp |]. by rewrite cell_emptyBoard in Hp. }
  destruct (setPiece_then_getPiece boardLonePawn 2 9
              (Some (mkPiece Rook black 0 0 true)) 6 4 Hwf eq_refl Hfresh)
    as (Hsame & Hother & _).
  split; [exact Hsame |]. rewrite Hother; [reflexivity | discriminate].
Defined.

(** ** What a snapshot puts on a square *)

(** The piece [updateFromServerState] builds for an entry, if its kind is
    known. *)
Definition pieceOfEntry (e : ServerPiece) : option Piece :=
  (λ k, mkPiece k (sp_color e) (sp_row e) (sp_col e) (sp_hasMoved e))
    <$> kindOfType (sp_type e).

(** The entry is of a known kind and names the square (r, c) of the board. *)
Definition entryAt (r c : Z) (e : ServerPiece) : Prop :=
  is_Some (kindOfType (sp_type e))
  ∧ isValidPosition (mkPos r c) = true ∧ sp_row e = r ∧ sp_col e = c.

Global Instance entryAt_dec r c e : Decision (entryAt r c e).
Proof. unfold entryAt. apply _. Defined.

Lemma placeServerPiece_eq b e :
  placeServerPiece b e =
    match pieceOfEntry e with
    | Some piece => setPiece b (sp_row e) (sp_col e) (Some piece)
    | None => b
    end.
Proof.
  unfold placeServerPiece, pieceOfEntry, createPieceFromType.
  by destruct (kindOfType (sp_type e)).
Qed.

Lemma getPiece_placeServerPiece b e r c :
  board_wf b →
  getPiece (placeServerPiece b e) r c =
    if decide (entryAt r c e) then pieceOfEntry e else getPiece b r c.
Proof.
  intros Hwf. rewrite placeServerPiece_eq.
  destruct (decide (entryAt r c e)) as [(Hk & Hv & <- & <-) | Hno].
  - destruct Hk as [k Hk]. unfold pieceOfEntry. rewrite Hk. simpl.
    rewrite getPiece_setPiece by done. by rewrite decide_True.
  - destruct (pieceOfEntry e) as [piece|] eqn:Hp; [| done].
    assert (is_Some (kindOfType (sp_type e))) as Hk.
    { unfold pieceOfEntry in Hp. destruct (kindOfType (sp_type e)); [by eexists | done]. }
    destruct (isValidPosition (mkPos (sp_row e) (sp_col e))) eqn:Hv.
    + rewrite getPiece_setPiece by done.
      rewrite decide_False; [done |]. intros [-> ->]. by apply Hno.
    + by rewrite setPiece_out_of_bounds.
Qed.

Lemma getPiece_emptyBoard r c : getPiece emptyBoard r c = None.
Proof. unfold getPiece. destruct (negb _); [done | apply cell_emptyBoard]. Qed.

Lemma getPiece_updateFromServerState b serverPieces r c :
  getPiece (updateFromServerState b serverPieces) r c
    = last (filter (entryAt r c) serverPieces) ≫= pieceOfEntry.
Proof.
  induction serverPieces as [| e sps IH] using rev_ind.
  { unfold updateFromServerState. simpl. apply getPiece_emptyBoard. }
  pose proof (updateFromServerState_wf b sps) as Hwf.
  unfold updateFromServerState in *. rewrite foldl_app. simpl.
  rewrite getPiece_placeServerPiece by done.
  rewrite filter_app, filter_cons, filter_nil.
  destruct (decide (entryAt r c e)) as [He | He].
  - by rewrite last_snoc.
  - by rewrite app_nil_r.
Qed.

(** The grid built from a snapshot holds, on each square, the piece of the
    last entry of a known kind that names that square (kind, colour and
    [hasMoved] taken from that entry), and nothing if there is no such
    entry; earlier entries for the square are overwritten. *)
Theorem snapshot_last_entry_wins (b : ChessBoard) (serverPieces : list ServerPiece)
    (r c : Z) :
  getPiece (updateFromServerState b serverPieces) r c
    = match last (filter (entryAt r c) serverPieces) with
      | Some e =>
          (λ k, mkPiece k (sp_color e) r c (sp_hasMoved e)) <$> kindOfType (sp_type e)
      | None => None
      end.
Proof.
  rewrite getPiece_updateFromServerState.
  destruct (last _) as [e|] eqn:Hlast; [| done]. simpl.
  apply last_Some_elem_of, list_elem_of_filter in Hlast as [(_ & _ & <- & <-) _].
  done.
Qed.

(** ** The list of pieces *)

Lemma length_omap_le {A B} (f : A → option B) (l : list A) :
  (length (omap f l) ≤ length l)%nat.
Proof.
  induction l as [| x l IH]; csimpl; [done |].
  destruct (f x); csimpl; [apply le_n_S, IH | by apply Nat.le_le_succ_r].
Qed.

Lemma getAllPieces_getPiece b p :
  p ∈ getAllPieces b ↔
    ∃ r c, (r < 8)%nat ∧ (c < 10)%nat ∧ getPiece b (Z.of_nat r) (Z.of_nat c) = Some p.
Proof.
  rewrite elem_of_getAllPieces. split; intros (r & c & Hr & Hc & Hp);
    exists r, c; (split; [done |]); (split; [done |]).
  - rewrite getPiece_cell by (apply isValidPosition_spec; simpl; lia).
    by rewrite !Nat2Z.id.
  - rewrite getPiece_cell in Hp by (apply isValidPosition_spec; simpl; lia).
    by rewrite !Nat2Z.id in Hp.
Qed.

Lemma getAllPieces_NoDup b : board_stamped b → NoDup (getAllPieces b).
Proof.
  intros Hst. unfold getAllPieces. apply NoDup_bind; [| | apply NoDup_seq].
  - intros r1 r2 p _ _ (c1 & Hp1 & _)%list_elem_of_bind (c2 & Hp2 & _)%list_elem_of_bind.
    destruct (cell b r1 c1) as [q1|] eqn:H1; [| by apply elem_of_nil in Hp1].
    destruct (cell b r2 c2) as [q2|] eqn:H2; [| by apply elem_of_nil in Hp2].
    apply list_elem_of_singleton in Hp1 as ->. apply list_elem_of_singleton in Hp2 as ->.
    apply Hst in H1 as [H1 _]. apply Hst in H2 as [H2 _]. lia.
  - intros r _. apply NoDup_bind; [| | apply NoDup_seq].
    + intros c1 c2 p _ _ Hp1 Hp2.
      destruct (cell b r c1) as [q1|] eqn:H1; [| by apply elem_of_nil in Hp1].
      destruct (cell b r c2) as [q2|] eqn:H2; [| by apply elem_of_nil in Hp2].
      apply list_elem_of_singleton in Hp1 as ->. apply list_elem_of_singleton in Hp2 as ->.
      apply Hst in H1 as [_ H1]. apply Hst in H2 as [_ H2]. lia.
    + intros c _. destruct (cell b r c); [apply NoDup_singleton | apply NoDup_nil_2].
Qed.

Lemma getPiece_snapshot_entry b serverPieces r c p :
  getPiece (updateFromServerState b serverPieces) r c = Some p →
  ∃ e, e ∈ serverPieces ∧ entryAt r c e ∧ pieceOfEntry e = Some p.
Proof.
  rewrite getPiece_updateFromServerState.
  destruct (last _) as [e|] eqn:Hlast; [| done]. simpl. intros Hp.
  apply last_Some_elem_of, list_elem_of_filter in Hlast as [Hat Hin]. by exists e.
Qed.

(** An entry of a known kind on the board, with no later entry for its
    square, is found on its square after the snapshot. *)
Lemma getPiece_snapshot_placed b before e after k :
  kindOfType (sp_type e) = Some k →
  isValidPosition (mkPos (sp_row e) (sp_col e)) = true →
  (∀ e', e' ∈ after → ¬ entryAt (sp_row e) (sp_col e) e') →
  getPiece (updateFromServerState b (before ++ e :: after)) (sp_row e) (sp_col e)
    = Some (mkPiece k (sp_color e) (sp_row e) (sp_col e) (sp_hasMoved e)).
Proof.
  intros Hk Hv Hlast. rewrite getPiece_updateFromServerState.
  rewrite filter_app, filter_cons.
  rewrite decide_True by (split; [by eexists | done]).
  assert (filter (entryAt (sp_row e) (sp_col e)) after = []) as ->.
  { clear -Hlast. induction after as [| e' after IH]; [done |].
    rewrite filter_cons, decide_False by (apply Hlast, list_elem_of_here).
    apply IH. intros e'' Hin. by apply Hlast, list_elem_of_further. }
  rewrite last_snoc. simpl. unfold pieceOfEntry. by rewrite Hk.
Qed.

(** C8. A snapshot entry whose kind string is none of pawn, rook, knight,
    bishop, queen, king, mann is skipped without an error:
    [createPieceFromType] returns no piece for it, its loop turn leaves the
    grid as it was, and the grid built from the snapshot is the one built
    from the snapshot without that entry.  All other entries are placed as
    usual: each square holds the piece of the last other entry of a known
    kind that names it (nothing if there is none), so every other entry of a
    known kind on the board is found on its square with its kind, colour and
    [hasMoved], unless a later entry names the same square. *)
Theorem unknown_kind_skipped (b : ChessBoard) (pre post : list ServerPiece)
    (e : ServerPiece) :
  sp_type e ∉ knownKinds →
  let b' := updateFromServerState b (pre ++ e :: post) in
  createPieceFromType (sp_type e) (sp_color e) (sp_row e) (sp_col e) = None
  ∧ (∀ b0, placeServerPiece b0 e = b0)
  ∧ b' = updateFromServerState b (pre ++ post)
  ∧ (∀ r c,
       getPiece b' r c
         = match last (filter (entryAt r c) (pre ++ post)) with
           | Some e' =>
               (λ k, mkPiece k (sp_color e') r c (sp_hasMoved e'))
                 <$> kindOfType (sp_type e')
           | None => None
           end)
  ∧ (∀ before e' after k,
       pre ++ post = before ++ e' :: after →
       kindOfType (sp_type e') = Some k →
       isValidPosition (mkPos (sp_row e') (sp_col e')) = true →
       (∀ e'', e'' ∈ after →
          ¬ (sp_type e'' ∈ knownKinds ∧ sp_row e'' = sp_row e' ∧ sp_col e'' = sp_col e')) →
       getPiece b' (sp_row e') (sp_col e')
         = Some (mkPiece k (sp_color e') (sp_row e') (sp_col e') (sp_hasMoved e'))).
Proof.
  intros Hk b'. apply kindOfType_None in Hk.
  assert (∀ b0, placeServerPiece b0 e = b0) as Hskip.
  { intros b0. unfold placeServerPiece, createPieceFromType. by rewrite Hk. }
  assert (b' = updateFromServerState b (pre ++ post)) as Hb'
    by by apply updateFromServerState_skip.
  split; [unfold createPieceFromType; by rewrite Hk |].
  split; [done |]. split; [done |]. rewrite Hb'. split.
  - intros r c. rewrite getPiece_updateFromServerState.
    destruct (last _) as [e'|] eqn:Hlast; [| done]. simpl.
    apply last_Some_elem_of, list_elem_of_filter in Hlast as [(_ & _ & <- & <-) _].
    done.
  - intros before e' after k -> Hk' Hv Hlater.
    apply getPiece_snapshot_placed; [done | done |].
    intros e'' Hin (Hknown & _ & Hr & Hc). apply (Hlater e'' Hin).
    split; [| done].
    destruct (decide (sp_type e'' ∈ knownKinds)) as [? | Hnk]; [done |].
    apply kindOfType_None in Hnk. rewrite Hnk in Hknown. by destruct Hknown.
Qed.

Lemma unknown_kind_skipped_witness :
  let e := mkServerPiece "wazir" black 2 2 false in
  let pawn := mkServerPiece "pawn" white 6 4 false in
  let mann := mkServerPiece "mann" black 0 9 true in
  let b' := updateFromServerState [] ([pawn] ++ e :: [mann]) in
  b' = updateFromServerState [] ([pawn] ++ [mann])
  ∧ getPiece b' 2 2 = None
  ∧ getPiece b' 6 4 = Some (mkPiece Pawn white 6 4 false)
  ∧ getPiece b' 0 9 = Some (mkPiece Mann black 0 9 true).
Proof.
  intros e pawn mann b'.
  assert (sp_type e ∉ knownKinds) as Hunknown
    by (apply (bool_decide_unpack _); vm_compute; exact I).
  destruct (unknown_kind_skipped [] [pawn] [mann] e Hunknown)
    as (_ & _ & Heq & Hlookup & Hplaced).
  split; [exact Heq |]. split; [exact (Hlookup 2 2) |]. split.
  - apply (Hplaced [] pawn [mann] Pawn); [reflexivity | reflexivity | reflexivity |].
    intros e'' Hin (_ & Hr & _). apply list_elem_of_singleton in Hin as ->.
    discriminate Hr.
  - apply (Hplaced [pawn] mann [] Mann); [reflexivity | reflexivity | reflexivity |].
    intros e'' Hin. by apply elem_of_nil in Hin.
Defined.

(** After a snapshot has been applied, [getAllPieces] lists exactly the
    pieces [getPiece] finds, each at the square its own fields name and each
    built from some entry of the snapshot; no piece is listed twice, and
    there are never more pieces than entries. *)
Theorem getAllPieces_of_snapshot (b : ChessBoard) (serverPieces : list ServerPiece) :
  let b' := updateFromServerState b serverPieces in
  (∀ p, p ∈ getAllPieces b' ↔ getPiece b' (piece_row p) (piece_col p) = Some p)
  ∧ (∀ p, p ∈ getAllPieces b' →
       ∃ e, e ∈ serverPieces
            ∧ kindOfType (sp_type e) = Some (piece_kind p)
            ∧ p = mkPiece (piece_kind p) (sp_color e) (sp_row e) (sp_col e)
                    (sp_hasMoved e))
  ∧ NoDup (getAllPieces b')
  ∧ (length (getAllPieces b') ≤ length serverPieces)%nat.
Proof.
  intros b'.
  assert (∀ p, p ∈ getAllPieces b' →
            ∃ e, e ∈ serverPieces ∧ pieceOfEntry e = Some p) as Hentry.
  { intros p (r & c & _ & _ & Hp)%getAllPieces_getPiece.
    apply getPiece_snapshot_entry in Hp as (e & Hin & _ & Hp). by exists e. }
  pose proof (getAllPieces_NoDup b' (updateFromServerState_stamped b serverPieces))
    as Hnd.
  split; [| split; [| split; [done |]]].
  - intros p. split.
    + intros (r & c & Hr & Hc & Hp)%elem_of_getAllPieces.
      destruct (updateFromServerState_stamped b serverPieces r c p Hp) as [-> ->].
      rewrite getPiece_cell by (apply isValidPosition_spec; simpl; lia).
      by rewrite !Nat2Z.id.
    + intros Hp. apply getAllPieces_getPiece.
      pose proof (getPiece_Some_valid _ _ _ _ Hp) as Hv.
      apply isValidPosition_spec in Hv. simpl in Hv.
      exists (Z.to_nat (piece_row p)), (Z.to_nat (piece_col p)).
      split; [lia |]. split; [lia |]. by rewrite !Z2Nat.id by lia.
  - intros p (e & Hin & Hp)%Hentry. exists e. split; [done |].
    unfold pieceOfEntry in Hp. destruct (kindOfType (sp_type e)) as [k|]; [| done].
    simpl in Hp. by simplify_eq.
  - etrans; [| apply (length_omap_le pieceOfEntry)].
    apply submseteq_length, NoDup_submseteq; [done |].
    intros p Hp. apply list_elem_of_omap. by apply Hentry.
Qed.

(** * Click handlers and the event loop *)

(** Calls into the drawing code made by [handlePieceClick]:
    [clearHighlights], [highlightSelectedPiece] and [showValidMoves], the
    last with the list it reads from [getValidMovesForSelected]. *)
Inductive ViewCall :=
  | ClearHighlights
  | HighlightSelectedPiece (row col : Z)
  | ShowValidMoves (validMoves : list Pos).

(** [handlePieceClick]; the result lists the drawing calls made, in order.
    [getSelectedPiece() === piece] compares objects: the selection is always
    an object of the current grid, and the objects of a grid sit in distinct
    cells and carry their cell in their fields, so on the states the program
    reaches it holds exactly when the two records are equal. *)
Definition handlePieceClick (r c : Z) : M (list ViewCall) :=
  ok ← canPlayerAct;
  if negb (ok : bool) then mret []
  else
    w ← get;
    match getPiece (board (chessGame w)) r c with
    | None => mret []
    | Some piece =>
        match selectedPiece (chessGame w) with
        | None =>
            selected ← selectPiece r c;
            if (selected : bool) then
              validMoves ← getValidMovesForSelected;
              mret [ClearHighlights; HighlightSelectedPiece r c;
                    ShowValidMoves validMoves]
            else mret []
        | Some sel =>
            if bool_decide (piece_color sel ≠ piece_color piece) then
              makeMove r c ;; mret []
            else if bool_decide (sel = piece) then
              deselectPiece ;; mret [ClearHighlights]
            else mret []
        end
    end.

Definition handleSquareClick (r c : Z) : M unit :=
  ok ← canPlayerAct;
  if negb (ok : bool) then mret tt
  else
    w ← get;
    match getPiece (board (chessGame w)) r c with
    | Some _ => mret tt
    | None => makeMove r c ;; mret tt
    end.

(** The [pointerdown] handler of the restart button. *)
Definition restartClick : M unit :=
  w ← get;
  match room w with
  | Some _ =>
      if bool_decide (playerColor w ≠ Some PSpectator) then emit MsgRestart
      else mret tt
  | None => mret tt
  end.

(** [room.onMessage("gameState", ...)]: [playerColor = message.color]. *)
Definition onGameState (color : PlayerColor) : M unit :=
  λ w, (tt, mkWorld (chessGame w) (room w) (Some color) (playerSessionId w) (sent w)).

(** What the event loop delivers: the room's state changes and messages, and
    the clicks.  The other room messages ([playerJoined], [moveExecuted],
    [pieceSelected], [pieceDeselected], [error], [gameRestarted]) only log
    and draw. *)
Inductive Event :=
  | StateChange (roomState : RoomState)
  | GameStateMessage (color : PlayerColor)
  | OtherMessage
  | PieceClick (row col : Z)
  | SquareClick (row col : Z)
  | RestartClick.

(** The effect of an event on the controller, the module-level variables
    and the messages sent. *)
Definition handle (ev : Event) : M unit :=
  match ev with
  | StateChange roomState => updateFromServer roomState
  | GameStateMessage color => onGameState color
  | OtherMessage => mret tt
  | PieceClick r c => handlePieceClick r c ;; mret tt
  | SquareClick r c => handleSquareClick r c
  | RestartClick => restartClick
  end.

(** Events registered on the room object: they need a joined room. *)
Definition fromRoom (ev : Event) : bool :=
  match ev with
  | StateChange _ | GameStateMessage _ | OtherMessage => true
  | _ => false
  end.

(** The two outcomes of [connectToRoom]: the room was joined and
    [playerSessionId] is its session id, or joining threw and [room] stays
    undefined. *)
Definition joined (r : Room) : World := mkWorld newGame (Some r) None (sessionId r) [].
Definition notJoined : World := mkWorld newGame None None "" [].

(** The states the running program can be in. *)
Inductive reachable : World → Prop :=
  | reach_joined r : reachable (joined r)
  | reach_notJoined : reachable notJoined
  | reach_handle w ev :
      reachable w → (fromRoom ev = true → room w ≠ None) →
      reachable (handle ev w).2.

(** The methods as functions on [World], continued. *)
Lemma canPlayerAct_run w :
  canPlayerAct w =
    (negb (bool_decide (playerColor w = Some PSpectator))
     && isPlayerColor (currentPlayer (chessGame w)) (playerColor w)
     && String.eqb (gameStatus (chessGame w)) "playing", w).
Proof. done. Qed.

Lemma handlePieceClick_run r c w :
  handlePieceClick r c w =
    if negb (canPlayerAct w).1 then ([], w)
    else match getPiece (board (chessGame w)) r c with
         | None => ([], w)
         | Some piece =>
             match selectedPiece (chessGame w) with
             | None =>
                 if (selectPiece r c w).1
                 then ([ClearHighlights; HighlightSelectedPiece r c; ShowValidMoves []],
                       (selectPiece r c w).2)
                 else ([], w)
             | Some sel =>
                 if bool_decide (piece_color sel ≠ piece_color piece)
                 then ([], (makeMove r c w).2)
                 else if bool_decide (sel = piece)
                 then ([ClearHighlights], withSent w (delivered w MsgDeselect))
                 else ([], w)
             end
         end.
Proof.
  unfold handlePieceClick. unfold mbind at 1. unfold M_bind.
  rewrite canPlayerAct_run. cbn [fst].
  destruct (negb _); [done |].
  unfold mbind at 1. unfold M_bind, get.
  destruct (getPiece (board (chessGame w)) r c) as [piece|] eqn:Hp; [| done].
  destruct (selectedPiece (chessGame w)) as [sel|] eqn:Hsel.
  - case_bool_decide; [unfold mbind, M_bind; by destruct (makeMove r c w) |].
    case_bool_decide; [| done].
    unfold mbind, M_bind, deselectPiece. by rewrite sendIfRoom_run.
  - unfold mbind at 1. unfold M_bind. rewrite selectPiece_run, Hp.
    destruct (negb _ || negb _); [done |]. cbn [fst snd].
    unfold mbind, M_bind. rewrite getValidMovesForSelected_run. simpl.
    by rewrite Hsel.
Qed.

Lemma handleSquareClick_run r c w :
  handleSquareClick r c w =
    (tt, if negb (canPlayerAct w).1 then w
         else match getPiece (board (chessGame w)) r c with
              | Some _ => w
              | None => (makeMove r c w).2
              end).
Proof.
  unfold handleSquareClick. unfold mbind at 1. unfold M_bind.
  rewrite canPlayerAct_run. cbn [fst].
  destruct (negb _); [done |].
  unfold mbind at 1. unfold M_bind, get.
  destruct (getPiece (board (chessGame w)) r c); [done |].
  unfold mbind, M_bind. by destruct (makeMove r c w).
Qed.

Lemma restartClick_run w :
  restartClick w =
    (tt, match room w with
         | Some _ =>
             if bool_decide (playerColor w ≠ Some PSpectator)
             then withSent w [MsgRestart] else w
         | None => w
         end).
Proof.
  unfold restartClick, mbind, M_bind, get.
  destruct (room w); [| done]. by case_bool_decide.
Qed.

(** ** What holds in every state the program reaches *)

Definition stateInvariant (w : World) : Prop :=
  board_wf (board (chessGame w))
  ∧ board_stamped (board (chessGame w))
  ∧ (∀ p, selectedPiece (chessGame w) = Some p →
       getPiece (board (chessGame w)) (piece_row p) (piece_col p) = Some p)
  ∧ (room w = None → chessGame w = newGame ∧ playerColor w = None ∧ sent w = [])
  ∧ (∀ r, room w = Some r → playerSessionId w = sessionId r).

Lemma getPiece_stamped b r c p :
  board_stamped b → getPiece b r c = Some p → piece_row p = r ∧ piece_col p = c.
Proof.
  intros Hst Hp. pose proof (getPiece_Some_valid _ _ _ _ Hp) as Hv.
  rewrite getPiece_cell in Hp by done. apply isValidPosition_spec in Hv.
  simpl in Hv. apply Hst in Hp. lia.
Qed.

Lemma delivered_no_room w m : room w = None → delivered w m = [].
Proof. unfold delivered. by intros ->. Qed.

Lemma delivered_room w m : room w ≠ None → delivered w m = [m].
Proof. unfold delivered. by destruct (room w). Qed.

Lemma stateInvariant_withSent w msgs :
  (room w = None → msgs = []) → stateInvariant w → stateInvariant (withSent w msgs).
Proof.
  intros Hmsgs (Hwf & Hst & Hsel & Hno & Hid). unfold stateInvariant. simpl.
  split; [done |]. split; [done |]. split; [done |]. split; [| done].
  intros Hnone. destruct (Hno Hnone) as (? & ? & ->). by rewrite Hmsgs.
Qed.

(** A click changes nothing but the messages sent, and sends nothing when
    no room was joined. *)
Lemma click_withSent ev w :
  fromRoom ev = false →
  ∃ msgs, (handle ev w).2 = withSent w msgs ∧ (room w = None → msgs = []).
Proof.
  assert (∃ msgs, w = withSent w msgs ∧ (room w = None → msgs = [])) as Hsame
    by (exists []; by rewrite withSent_nil).
  assert (∀ r c, ∃ msgs, (selectPiece r c w).2 = withSent w msgs
                         ∧ (room w = None → msgs = [])) as Hselect.
  { intros r c. rewrite selectPiece_run.
    destruct (getPiece _ r c) as [piece|]; [| done].
    destruct (negb _ || negb _); [done |]. eexists. split; [done |].
    apply delivered_no_room. }
  assert (∀ r c, ∃ msgs, (makeMove r c w).2 = withSent w msgs
                         ∧ (room w = None → msgs = [])) as Hmove.
  { intros r c. rewrite makeMove_run.
    destruct (selectedPiece _) as [sel|]; [| done].
    destruct (bool_decide _); [done |].
    destruct (isValidMove _ r c); [| done]. eexists. split; [done |].
    apply delivered_no_room. }
  destruct ev as [rs | color | | r c | r c |]; intros Hev; try done.
  - unfold handle, mbind, M_bind. rewrite handlePieceClick_run.
    destruct (negb _); [done |].
    destruct (getPiece _ r c) as [piece|]; [| done].
    destruct (selectedPiece _) as [sel|].
    + case_bool_decide; [apply Hmove |]. case_bool_decide; [| done].
      eexists. split; [done |]. apply delivered_no_room.
    + destruct (selectPiece r c w).1 eqn:Hok; [apply Hselect | done].
  - unfold handle. rewrite handleSquareClick_run. cbn [snd].
    destruct (negb _); [done |].
    destruct (getPiece _ r c) as [piece|]; [done | apply Hmove].
  - unfold handle. rewrite restartClick_run. cbn [snd].
    destruct (room w); [| done]. case_bool_decide; [| done].
    by exists [MsgRestart].
Qed.

Lemma updateFromServer_run roomState w :
  updateFromServer roomState w =
    (tt, mkWorld
           (mkGame (updateFromServerState (board (chessGame w)) (pieces roomState))
              (currentTurn roomState)
              (if decide (selectedPiecePlayer roomState = playerSessionId w)
               then getPiece
                      (updateFromServerState (board (chessGame w)) (pieces roomState))
                      (selectedRow roomState) (selectedCol roomState)
               else None)
              (rs_gameStatus roomState))
           (room w) (playerColor w) (playerSessionId w) (sent w)).
Proof. done. Qed.

Lemma reachable_stateInvariant w : reachable w → stateInvariant w.
Proof.
  induction 1 as [r | | w ev Hreach IH Hen].
  - unfold stateInvariant, joined. simpl. split; [apply emptyBoard_wf |].
    split; [intros ???; by rewrite cell_emptyBoard |]. split; [done |].
    split; [done |]. by intros ? [= ->].
  - unfold stateInvariant, notJoined. simpl. split; [apply emptyBoard_wf |].
    split; [intros ???; by rewrite cell_emptyBoard |]. done.
  - destruct (fromRoom ev) eqn:Hev.
    + specialize (Hen eq_refl). destruct IH as (Hwf & Hst & Hsel & Hno & Hid).
      destruct ev as [rs | color | | r c | r c |]; [| done ..].
      unfold handle. rewrite updateFromServer_run. unfold stateInvariant. simpl.
      split; [apply updateFromServerState_wf |].
      split; [apply updateFromServerState_stamped |].
      split; [| done]. intros p. case_decide; [| done]. intros Hp.
      destruct (getPiece_stamped _ _ _ _
                  (updateFromServerState_stamped _ _) Hp) as [-> ->]. done.
    + destruct (click_withSent ev w Hev) as (msgs & -> & Hmsgs).
      by apply stateInvariant_withSent.
Qed.

(** In every state the running program reaches: the grid has 8 rows of 10
    cells; every piece on it carries the row and column of its cell; the
    local selection, if any, is the piece standing on the grid at the
    selection's own row and column; and while no room is joined the
    controller is still as constructed (empty board, no selection), no role
    is assigned and nothing has been sent. *)
Theorem reachable_states_are_consistent (w : World) :
  reachable w →
  board_wf (board (chessGame w))
  ∧ (∀ r c p, getPiece (board (chessGame w)) r c = Some p →
       piece_row p = r ∧ piece_col p = c)
  ∧ (∀ p, selectedPiece (chessGame w) = Some p →
       getPiece (board (chessGame w)) (piece_row p) (piece_col p) = Some p)
  ∧ (room w = None →
       chessGame w = newGame ∧ playerColor w = None ∧ sent w = [])
  ∧ (∀ r, room w = Some r → playerSessionId w = sessionId r).
Proof.
  intros (Hwf & Hst & Hsel & Hno & Hid)%reachable_stateInvariant.
  split; [done |]. split; [| done].
  intros r c p. by apply getPiece_stamped.
Qed.

(** A state reached in the example runs: joined as "me", told to play white,
    then sent a snapshot with one white pawn that "me" has selected. *)
Definition exampleSnapshot : RoomState :=
  mkRoomState [mkServerPiece "pawn" white 6 4 false] white "playing" "me" 6 4.
Definition exampleRun : World :=
  (handle (StateChange exampleSnapshot)
     (handle (GameStateMessage PWhite) (joined (mkRoom "me"))).2).2.

Lemma exampleRun_reachable : reachable exampleRun.
Proof.
  unfold exampleRun. apply reach_handle; [| done].
  apply reach_handle; [apply reach_joined | done].
Defined.

Lemma reachable_states_are_consistent_witness :
  getPiece (board (chessGame exampleRun)) 6 4 = Some examplePawn
  ∧ selectedPiece (chessGame exampleRun) = Some examplePawn
  ∧ playerSessionId exampleRun = "me".
Proof.
  destruct (reachable_states_are_consistent exampleRun exampleRun_reachable)
    as (_ & _ & Hsel & _ & Hid).
  split; [by apply (Hsel examplePawn) |]. split; [reflexivity |].
  by apply (Hid (mkRoom "me")).
Defined.

(** In every state the running program reaches, a successful [selectPiece]
    sends exactly one select message with the clicked coordinates, and a
    successful [makeMove] sends exactly one move message whose origin is the
    square on which the selected piece stands on the grid.  ([room] is
    undefined only while the board is empty and nothing is selected.) *)
Theorem running_intents_send_one_message (w : World) (r c : Z) :
  reachable w →
  ((selectPiece r c w).1 = true →
     (selectPiece r c w).2 = withSent w [MsgSelect r c])
  ∧ ((makeMove r c w).1 = true →
       ∃ sel, selectedPiece (chessGame w) = Some sel
         ∧ getPiece (board (chessGame w)) (piece_row sel) (piece_col sel) = Some sel
         ∧ (makeMove r c w).2
             = withSent w [MsgMove (piece_row sel) (piece_col sel) r c]).
Proof.
  intros (Hwf & Hst & Hsel & Hno & Hid)%reachable_stateInvariant. split.
  - rewrite selectPiece_run.
    destruct (getPiece _ r c) as [piece|] eqn:Hp; [| done].
    destruct (negb _ || negb _); [done |]. intros _. cbn [snd].
    rewrite delivered_room; [done |]. intros Hnone.
    destruct (Hno Hnone) as (Hg & _). rewrite Hg in Hp. simpl in Hp.
    by rewrite getPiece_emptyBoard in Hp.
  - rewrite makeMove_run.
    destruct (selectedPiece _) as [sel|] eqn:Hs; [| done].
    destruct (bool_decide _); [done |].
    destruct (isValidMove _ r c); [| done]. intros _. cbn [snd].
    exists sel. split; [done |]. split; [by apply Hsel |].
    rewrite delivered_room; [done |]. intros Hnone.
    destruct (Hno Hnone) as (Hg & _). by rewrite Hg in Hs.
Qed.

Lemma running_intents_send_one_message_witness :
  (makeMove 5 4 exampleRun).2 = withSent exampleRun [MsgMove 6 4 5 4].
Proof.
  destruct (running_intents_send_one_message exampleRun 5 4 exampleRun_reachable)
    as [_ Hmove].
  destruct (Hmove eq_refl) as (sel & [= <-] & _ & Heq). exact Heq.
Defined.

(** The clicks are gated.  While [canPlayerAct] is false a click on a piece
    or on a square changes nothing, sends nothing and draws nothing; a
    spectator's click on a piece, a square or the restart button sends
    nothing. *)
Theorem clicks_are_gated (w : World) (r c : Z) :
  ((canPlayerAct w).1 = false →
     handlePieceClick r c w = ([], w) ∧ handleSquareClick r c w = (tt, w))
  ∧ (playerColor w = Some PSpectator →
       ∀ ev, fromRoom ev = false → (handle ev w).2 = w).
Proof.
  split.
  - intros Hno. rewrite handlePieceClick_run, handleSquareClick_run.
    by rewrite Hno.
  - intros Hspec ev Hev.
    assert ((canPlayerAct w).1 = false) as Hno
      by (rewrite canPlayerAct_run; simpl; rewrite Hspec; done).
    destruct ev as [rs | color | | r' c' | r' c' |]; try done.
    + unfold handle, mbind, M_bind. rewrite handlePieceClick_run. by rewrite Hno.
    + unfold handle. rewrite handleSquareClick_run. by rewrite Hno.
    + unfold handle. rewrite restartClick_run. destruct (room w); [| done].
      rewrite bool_decide_false; [done |]. by intros Hne.
Qed.

Lemma clicks_are_gated_witness :
  let waiting := mkWorld (mkGame boardLonePawn white None "waiting")
                   (Some (mkRoom "me")) (Some PWhite) "me" [] in
  handlePieceClick 6 4 waiting = ([], waiting)
  ∧ (handle RestartClick
       (mkWorld newGame (Some (mkRoom "me")) (Some PSpectator) "me" [])).2
    = mkWorld newGame (Some (mkRoom "me")) (Some PSpectator) "me" [].
Proof.
  intros waiting. split.
  - destruct (clicks_are_gated waiting 6 4) as [Hgate _].
    by destruct (Hgate eq_refl).
  - destruct (clicks_are_gated
                (mkWorld newGame (Some (mkRoom "me")) (Some PSpectator) "me" []) 0 0)
      as [_ Hspec].
    by apply Hspec.
Defined.

(** What a click can send.  A click on a piece or on a square sends at most
    one message, and only while [canPlayerAct] holds and a room is joined:
    with nothing selected, a click on a piece of the own colour sends select
    for that square; with a piece selected, a click on a piece of the other
    colour, or on an empty square, sends a move from the selected piece's
    square if the clicked square is among its valid moves; a click on the
    selected piece itself sends deselect.  Nothing else is ever sent. *)
Theorem click_sends_at_most_one (w : World) (r c : Z) :
  let g := chessGame w in
  let moveTo sel :=
    [MsgMove (piece_row sel) (piece_col sel) r c] in
  (∃ msgs, (handlePieceClick r c w).2 = withSent w msgs
     ∧ (msgs = []
        ∨ (canPlayerAct w).1 = true ∧ room w ≠ None
          ∧ ∃ piece, getPiece (board g) r c = Some piece
              ∧ ((selectedPiece g = None
                  ∧ playerColor w = Some (roleOf (piece_color piece))
                  ∧ msgs = [MsgSelect r c])
                 ∨ (∃ sel, selectedPiece g = Some sel
                      ∧ piece_color sel ≠ piece_color piece
                      ∧ mkPos r c ∈ getValidMoves sel (board g)
                      ∧ msgs = moveTo sel)
                 ∨ (selectedPiece g = Some piece ∧ msgs = [MsgDeselect]))))
  ∧ (∃ msgs, (handleSquareClick r c w).2 = withSent w msgs
       ∧ (msgs = []
          ∨ (canPlayerAct w).1 = true ∧ room w ≠ None
            ∧ getPiece (board g) r c = None
            ∧ ∃ sel, selectedPiece g = Some sel
                ∧ mkPos r c ∈ getValidMoves sel (board g)
                ∧ msgs = moveTo sel)).
Proof.
  intros g moveTo. subst g moveTo.
  assert (∀ P : list Message → Prop, ∃ msgs, w = withSent w msgs ∧ (msgs = [] ∨ P msgs))
    as Hsame by (intros; exists []; split; [by rewrite withSent_nil | by left]).
  assert (∀ m, room w = None → ∀ P : list Message → Prop,
            ∃ msgs, withSent w (delivered w m) = withSent w msgs ∧ (msgs = [] ∨ P msgs))
    as Hnoroom.
  { intros m Hnone P. exists []. rewrite delivered_no_room by done. by split; [| left]. }
  split.
  - rewrite handlePieceClick_run.
    destruct (canPlayerAct w).1 eqn:Hact; cbn [negb]; [| by apply Hsame].
    destruct (getPiece _ r c) as [piece|] eqn:Hp; [| by apply Hsame].
    assert (room w = None ∨ room w ≠ None) as [Hnone | Hroom]
      by (destruct (room w); [by right | by left]).
    { destruct (selectedPiece _) as [sel|].
      - rewrite makeMove_run. case_bool_decide.
        + destruct (selectedPiece _) as [sel'|]; [| by apply Hsame].
          destruct (bool_decide _); [by apply Hsame |].
          destruct (isValidMove _ r c); [by apply Hnoroom | by apply Hsame].
        + case_bool_decide; [by apply Hnoroom | by apply Hsame].
      - rewrite selectPiece_run, Hp.
        destruct (negb _ || negb _); cbn [fst snd];
          [by apply Hsame | by apply Hnoroom]. }
    destruct (selectedPiece _) as [sel|] eqn:Hs.
    + case_bool_decide as Hcol.
      * rewrite makeMove_run, Hs.
        destruct (bool_decide _); [by apply Hsame |].
        destruct (isValidMove _ r c) eqn:Hv; [| by apply Hsame].
        apply isValidMove_elem in Hv. cbn [snd]. eexists. split; [done |].
        right. split; [done |]. split; [done |]. exists piece. split; [done |].
        right; left. exists sel. rewrite delivered_room by done. done.
      * case_bool_decide as Heq; [| by apply Hsame]. subst sel.
        cbn [snd]. eexists. split; [done |].
        right. split; [done |]. split; [done |]. exists piece. split; [done |].
        right; right. by rewrite delivered_room.
    + rewrite selectPiece_run, Hp.
      destruct (isPlayerColor (piece_color piece) (playerColor w)) eqn:Hown;
        cbn [negb orb]; [| by apply Hsame].
      destruct (negb _); cbn [fst snd]; [by apply Hsame |].
      apply isPlayerColor_spec in Hown.
      eexists. split; [done |].
      right. split; [done |]. split; [done |]. exists piece. split; [done |].
      left. by rewrite delivered_room.
  - rewrite handleSquareClick_run. cbn [snd].
    destruct (canPlayerAct w).1 eqn:Hact; cbn [negb]; [| by apply Hsame].
    destruct (getPiece _ r c) as [piece|] eqn:Hp; [by apply Hsame |].
    rewrite makeMove_run.
    destruct (selectedPiece _) as [sel|] eqn:Hs; [| by apply Hsame].
    destruct (bool_decide _); [by apply Hsame |].
    destruct (isValidMove _ r c) eqn:Hv; [| by apply Hsame].
    apply isValidMove_elem in Hv. cbn [snd].
    assert (room w = None ∨ room w ≠ None) as [Hnone | Hroom]
      by (destruct (room w); [by right | by left]); [by apply Hnoroom |].
    eexists. split; [done |]. right. split; [done |]. split; [done |].
    split; [done |]. exists sel. by rewrite delivered_room.
Qed.

(** The drawing calls of a click on a piece are one of: none; a single
    [clearHighlights] (after deselect); or [clearHighlights],
    [highlightSelectedPiece] on the clicked square and [showValidMoves] with
    an empty list.  [showValidMoves] runs right after [selectPiece], which
    does not set the selection, so the list it reads from
    [getValidMovesForSelected] is always empty: this handler never draws a
    destination square. *)
Theorem piece_click_draws_no_destinations (w : World) (r c : Z) :
  (handlePieceClick r c w).1 ∈
    [ []; [ClearHighlights];
      [ClearHighlights; HighlightSelectedPiece r c; ShowValidMoves []] ]
  ∧ ∀ validMoves,
      ShowValidMoves validMoves ∈ (handlePieceClick r c w).1 → validMoves = [].
Proof.
  rewrite handlePieceClick_run.
  destruct (negb _); [split; [set_solver | by intros ? ?%elem_of_nil] |].
  destruct (getPiece _ r c) as [piece|];
    [| split; [set_solver | by intros ? ?%elem_of_nil]].
  destruct (selectedPiece _) as [sel|].
  - case_bool_decide; [split; [set_solver | by intros ? ?%elem_of_nil] |].
    case_bool_decide; [| split; [set_solver | by intros ? ?%elem_of_nil]].
    split; [set_solver |]. intros moves Hin. cbn [fst] in Hin.
    apply list_elem_of_singleton in Hin. done.
  - destruct (selectPiece r c w).1;
      [| split; [set_solver | by intros ? ?%elem_of_nil]].
    split; [set_solver |]. intros moves Hin. cbn [fst] in Hin.
    rewrite !elem_of_cons, elem_of_nil in Hin.
    destruct Hin as [? | [? | [[= ->] | []]]]; done.
Qed.

(** In a state the program reaches, with a piece selected, a click on a
    different piece of the same colour as the selected one does nothing: no
    message, no drawing, no change of selection.  (To select another piece
    the player must first click the selected one to deselect.) *)
Theorem no_direct_reselect (w : World) (r c : Z) (sel piece : Piece) :
  reachable w →
  selectedPiece (chessGame w) = Some sel →
  getPiece (board (chessGame w)) r c = Some piece →
  piece_color piece = piece_color sel →
  (r, c) ≠ (piece_row sel, piece_col sel) →
  handlePieceClick r c w = ([], w).
Proof.
  intros (Hwf & Hst & Hsel & Hno & Hid)%reachable_stateInvariant Hs Hp Hcol Hne.
  rewrite handlePieceClick_run, Hp, Hs.
  destruct (negb _); [done |].
  rewrite bool_decide_false by (intros Hc; by apply Hc).
  rewrite bool_decide_false; [done |]. intros ->.
  destruct (getPiece_stamped _ _ _ _ Hst Hp) as [<- <-]. done.
Qed.

Lemma no_direct_reselect_witness :
  let w := (handle (StateChange
                      (mkRoomState [mkServerPiece "pawn" white 6 4 false;
                                    mkServerPiece "rook" white 7 0 false]
                         white "playing" "me" 6 4))
              (handle (GameStateMessage PWhite) (joined (mkRoom "me"))).2).2 in
  handlePieceClick 7 0 w = ([], w).
Proof.
  intros w.
  apply (no_direct_reselect w 7 0 examplePawn (mkPiece Rook white 7 0 false)).
  - apply reach_handle; [| done]. apply reach_handle; [apply reach_joined | done].
  - reflexivity.
  - reflexivity.
  - reflexivity.
  - discriminate.
Defined.

(** A move made after a snapshot.  If [makeMove] succeeds in the state left
    by [updateFromServer], then the snapshot named this session as the
    selecting one, its selection coordinates are a square of the board on
    which one of its entries put a piece, the target is a different square
    of the board, and the move message (sent if a room is joined) carries
    the snapshot's selection coordinates as origin. *)
Theorem move_after_reconcile (roomState : RoomState) (w : World) (toRow toCol : Z) :
  let w1 := (updateFromServer roomState w).2 in
  let fromRow := selectedRow roomState in
  let fromCol := selectedCol roomState in
  (makeMove toRow toCol w1).1 = true →
  selectedPiecePlayer roomState = playerSessionId w
  ∧ isValidPosition (mkPos fromRow fromCol) = true
  ∧ (∃ e, e ∈ pieces roomState ∧ sp_row e = fromRow ∧ sp_col e = fromCol
          ∧ sp_type e ∈ knownKinds)
  ∧ isValidPosition (mkPos toRow toCol) = true
  ∧ (toRow, toCol) ≠ (fromRow, fromCol)
  ∧ (makeMove toRow toCol w1).2
      = withSent w1 match room w with
                    | Some _ => [MsgMove fromRow fromCol toRow toCol]
                    | None => []
                    end.
Proof.
  intros w1 fromRow fromCol. subst w1.
  rewrite makeMove_run, updateFromServer_run. cbn [snd chessGame selectedPiece board
    playerColor].
  case_decide as Hsess; [| done].
  destruct (getPiece _ _ _) as [sel|] eqn:Hsel; [| done].
  destruct (bool_decide _); [done |].
  destruct (isValidMove _ toRow toCol) eqn:Hv; [| done]. intros _.
  apply isValidMove_elem in Hv.
  destruct (getPiece_stamped _ _ _ _ (updateFromServerState_stamped _ _) Hsel)
    as [Hr Hc].
  pose proof (getValidMoves_valid _ _ _ Hv) as Hto.
  apply getValidMoves_lands in Hv as [_ Hne].
  apply getPiece_snapshot_entry in Hsel as Hentry.
  destruct Hentry as (e & Hin & (Hk & Hfrom & He1 & He2) & _).
  split; [done |]. split; [done |]. split.
  { exists e. split; [done |]. split; [done |]. split; [done |].
    destruct (decide (sp_type e ∈ knownKinds)) as [? | Hnk]; [done |].
    apply kindOfType_None in Hnk. rewrite Hnk in Hk. by destruct Hk. }
  split; [done |]. split.
  { intros [= -> ->]. apply Hne. by rewrite Hr, Hc. }
  cbn [snd]. unfold delivered. cbn [room]. by rewrite Hr, Hc.
Qed.

Lemma move_after_reconcile_witness :
  let w := (handle (GameStateMessage PWhite) (joined (mkRoom "me"))).2 in
  (makeMove 4 4 (updateFromServer exampleSnapshot w).2).2
    = withSent (updateFromServer exampleSnapshot w).2 [MsgMove 6 4 4 4].
Proof.
  intros w.
  destruct (move_after_reconcile exampleSnapshot w 4 4 eq_refl)
    as (_ & _ & _ & _ & _ & Heq).
  exact Heq.
Defined.

(** ** The intents as the program issues them *)

(** C1. In every state the program reaches, the select intent fails unless
    [canPlayerAct] holds (the own role is a playing side, it is that side's
    turn and the status is "playing"), a piece stands on the clicked square
    and its colour is the own role.  [selectPiece] is called from one place,
    [handlePieceClick] with nothing selected, after [canPlayerAct]: when one
    of the conditions fails the click returns without a message, a drawing
    call or a change of state, and where [selectPiece] is called (after the
    guard) it returns false, untouched state, unless the own piece is there.
    When all hold, [selectPiece] returns true and exactly one select message
    carrying the clicked coordinates is sent. *)
Theorem select_intent_gate (w : World) (r c : Z) :
  reachable w →
  let g := chessGame w in
  let canAct := (canPlayerAct w).1 = true in
  let ownPieceAt :=
    ∃ piece, getPiece (board g) r c = Some piece
             ∧ playerColor w = Some (roleOf (piece_color piece)) in
  (canAct ↔
     playerColor w ≠ Some PSpectator
     ∧ playerColor w = Some (roleOf (currentPlayer g))
     ∧ gameStatus g = "playing")
  ∧ (selectedPiece g = None →
       (canAct ∧ ownPieceAt →
          selectPiece r c w = (true, withSent w [MsgSelect r c])
          ∧ (handlePieceClick r c w).2 = withSent w [MsgSelect r c])
       ∧ (¬ (canAct ∧ ownPieceAt) → handlePieceClick r c w = ([], w)))
  ∧ (canAct →
       ((selectPiece r c w).1 = true ↔ ownPieceAt)
       ∧ ((selectPiece r c w).1 = false → (selectPiece r c w).2 = w)
       ∧ ((selectPiece r c w).1 = true →
            (selectPiece r c w).2 = withSent w [MsgSelect r c])).
Proof.
  intros (Hwf & Hst & Hsel & Hno & Hid)%reachable_stateInvariant g canAct ownPieceAt.
  subst g canAct ownPieceAt.
  assert (∀ piece, getPiece (board (chessGame w)) r c = Some piece → room w ≠ None)
    as Hroom.
  { intros piece Hp Hnone. destruct (Hno Hnone) as (Hg & _). rewrite Hg in Hp.
    simpl in Hp. by rewrite getPiece_emptyBoard in Hp. }
  assert ((canPlayerAct w).1 = true →
            ((selectPiece r c w).1 = true ↔
               ∃ piece, getPiece (board (chessGame w)) r c = Some piece
                        ∧ playerColor w = Some (roleOf (piece_color piece)))
            ∧ ((selectPiece r c w).1 = false → (selectPiece r c w).2 = w)
            ∧ ((selectPiece r c w).1 = true →
                 (selectPiece r c w).2 = withSent w [MsgSelect r c])) as Hcall.
  { intros (_ & Hturn & _)%canPlayerAct_spec. apply isPlayerColor_spec in Hturn.
    rewrite selectPiece_run, Hturn.
    destruct (getPiece _ r c) as [piece|] eqn:Hp;
      [| split; [split; [done | by intros (? & [=] & _)] | done]].
    destruct (isPlayerColor (piece_color piece) _) eqn:Hown; cbn [negb orb fst snd].
    - apply isPlayerColor_spec in Hown. split; [split; [by exists piece | done] |].
      split; [done |]. intros _. rewrite delivered_room; [done | by eapply Hroom].
    - split; [| done]. split; [done |]. intros (q & [= <-] & Hq).
      apply isPlayerColor_spec in Hq. congruence. }
  split; [apply canPlayerAct_spec |]. split; [| done].
  intros Hnone. split.
  - intros [Hact Hown]. destruct (Hcall Hact) as (Hiff & _ & Hsend).
    apply Hiff in Hown as Hok. specialize (Hsend Hok).
    destruct Hown as (piece & Hp & _).
    rewrite handlePieceClick_run, Hact, Hp, Hnone, Hok. cbn [negb snd].
    split; [| done]. destruct (selectPiece r c w) as [ok w']. simpl in *. by subst.
  - intros Hnot. rewrite handlePieceClick_run.
    destruct (canPlayerAct w).1 eqn:Hact; cbn [negb]; [| done].
    destruct (getPiece _ r c) as [piece|] eqn:Hp; [| done]. rewrite Hnone.
    destruct (Hcall eq_refl) as (Hiff & _ & _).
    destruct (selectPiece r c w).1; [| done].
    exfalso. apply Hnot. split; [done |]. by apply Hiff.
Qed.

(** A state reached when another session holds the selection: joined as
    "me", told to play white, then sent a snapshot with one white pawn. *)
Definition exampleIdle : World :=
  (handle (StateChange
             (mkRoomState [mkServerPiece "pawn" white 6 4 false] white "playing"
                "other" 0 0))
     (handle (GameStateMessage PWhite) (joined (mkRoom "me"))).2).2.

Lemma exampleIdle_reachable : reachable exampleIdle.
Proof.
  unfold exampleIdle. apply reach_handle; [| done].
  apply reach_handle; [apply reach_joined | done].
Defined.

Lemma select_intent_gate_witness :
  selectPiece 6 4 exampleIdle = (true, withSent exampleIdle [MsgSelect 6 4])
  ∧ (handlePieceClick 6 4 exampleIdle).2 = withSent exampleIdle [MsgSelect 6 4]
  ∧ handlePieceClick 5 4 exampleIdle = ([], exampleIdle)
  ∧ (selectPiece 5 4 exampleIdle).2 = exampleIdle.
Proof.
  destruct (select_intent_gate exampleIdle 6 4 exampleIdle_reachable)
    as (_ & Hclick & _).
  destruct (Hclick eq_refl) as [Hok _].
  destruct Hok as [Hsel Hhandler].
  { split; [reflexivity |]. exists examplePawn. split; reflexivity. }
  destruct (select_intent_gate exampleIdle 5 4 exampleIdle_reachable)
    as (_ & Hclick' & Hcall).
  destruct (Hclick' eq_refl) as [_ Hfail].
  destruct (Hcall eq_refl) as (_ & Hsame & _).
  split; [exact Hsel |]. split; [exact Hhandler |]. split.
  - apply Hfail. intros [_ (piece & Hp & _)]. discriminate Hp.
  - apply Hsame. reflexivity.
Defined.

(** C2. In every state the program reaches, [makeMove] fails (it returns
    false, sends nothing and leaves the state as it was) if there is no
    local selection, if the own role is spectator, or if the target square is
    not among [getValidMovesForSelected]; otherwise it returns true and
    sends exactly one move message, carrying the row and column of the
    square on which the selected piece stands and the target coordinates. *)
Theorem move_intent_gate (w : World) (toRow toCol : Z) :
  reachable w →
  let g := chessGame w in
  let res := makeMove toRow toCol w in
  (selectedPiece g = None ∨ playerColor w = Some PSpectator
   ∨ mkPos toRow toCol ∉ (getValidMovesForSelected w).1 →
     res = (false, w))
  ∧ (¬ (selectedPiece g = None ∨ playerColor w = Some PSpectator
        ∨ mkPos toRow toCol ∉ (getValidMovesForSelected w).1) →
       ∃ sel, selectedPiece g = Some sel
         ∧ getPiece (board g) (piece_row sel) (piece_col sel) = Some sel
         ∧ res = (true, withSent w
                          [MsgMove (piece_row sel) (piece_col sel) toRow toCol]))
  ∧ (res.1 = false → res.2 = w).
Proof.
  intros (Hwf & Hst & Hsel & Hno & Hid)%reachable_stateInvariant g res.
  subst g res. rewrite makeMove_run, getValidMovesForSelected_run. cbn [fst].
  destruct (selectedPiece (chessGame w)) as [sel|] eqn:Hs.
  - assert (room w ≠ None) as Hroom.
    { intros Hnone. destruct (Hno Hnone) as (Hg & _). by rewrite Hg in Hs. }
    case_bool_decide as Hspec.
    { split; [done |]. split; [| done]. intros Hnot. exfalso. apply Hnot. by right; left. }
    destruct (isValidMove _ toRow toCol) eqn:Hv.
    + apply isValidMove_elem in Hv. split; [| split; [| done]].
      * intros [[=] | [? | Hnin]]; done.
      * intros _. exists sel. split; [done |]. split; [by apply Hsel |].
        by rewrite delivered_room.
    + split; [done |]. split; [| done]. intros Hnot. exfalso. apply Hnot.
      do 2 right. intros Hin%isValidMove_elem. congruence.
  - split; [done |]. split; [| done]. intros Hnot. exfalso. apply Hnot. by left.
Qed.

Lemma move_intent_gate_witness :
  makeMove 4 4 exampleRun = (true, withSent exampleRun [MsgMove 6 4 4 4])
  ∧ makeMove 3 4 exampleRun = (false, exampleRun)
  ∧ makeMove 4 4 exampleIdle = (false, exampleIdle).
Proof.
  destruct (move_intent_gate exampleRun 4 4 exampleRun_reachable) as (_ & Hok & _).
  destruct (move_intent_gate exampleRun 3 4 exampleRun_reachable) as (Hfail & _ & _).
  destruct (move_intent_gate exampleIdle 4 4 exampleIdle_reachable) as (Hnone & _ & _).
  split; [| split].
  - destruct Hok as (sel & [= <-] & _ & Heq); [| exact Heq].
    intros [[=] | [[=] | Hnin]]. apply Hnin. vm_compute.
    apply list_elem_of_further, list_elem_of_here.
  - apply Hfail. do 2 right. apply (bool_decide_unpack _). vm_compute. exact I.
  - apply Hnone. by left.
Defined.

(** * Images and sprites *)

Local Open Scope string_scope.

(** [getImageKey()] of each subclass. *)
Definition getImageKey (this : Piece) : string :=
  let suffix := if decide (piece_color this = white) then "w" else "b" in
  match piece_kind this with
  | Pawn => "pawn_" ++ suffix
  | Rook => "rook_" ++ suffix
  | Knight => "knight_" ++ suffix
  | Bishop => "bishop_" ++ suffix
  | Queen => "queen_" ++ suffix
  | King => "king_" ++ suffix
  | Mann => "mann_" ++ suffix
  end.

(** [preload]: the (key, path) pairs handed to [this.load.image]. *)
Definition preload : list (string * string) :=
  let pieces := ["pawn"; "rook"; "knight"; "bishop"; "queen"; "king"; "mann"] in
  let colors := ["b"; "w"] in
  piece ← pieces; color ← colors;
  [(piece ++ "_" ++ color, "/chess_peices/" ++ piece ++ "_" ++ color ++ ".svg")].

(** A sprite made by [updatePieceSprites]: the slot of [pieceSprites] it is
    stored in, the pixel position of its centre, and its image key. *)
Record Sprite := mkSprite {
  slotRow : Z;
  slotCol : Z;
  spriteX : Z;
  spriteY : Z;
  imageKey : string
}.

(** The second loop of [updatePieceSprites], with [tileSize = 100]. *)
Definition updatePieceSprites (b : ChessBoard) : list Sprite :=
  let tileSize := 100%Z in
  (λ piece,
     mkSprite (piece_row piece) (piece_col piece)
       (piece_col piece * tileSize + tileSize / 2)
       (piece_row piece * tileSize + tileSize / 2)
       (getImageKey piece)) <$> getAllPieces b.

Local Close Scope string_scope.

(** Every piece's image key was loaded by [preload], from the file of that
    name, and [preload] loads each key once; two pieces have the same image
    exactly when they have the same kind and colour. *)
Theorem image_keys_are_preloaded (this that : Piece) :
  (getImageKey this, ("/chess_peices/" ++ getImageKey this ++ ".svg")%string) ∈ preload
  ∧ NoDup preload.*1
  ∧ (getImageKey this = getImageKey that ↔
       piece_kind this = piece_kind that ∧ piece_color this = piece_color that).
Proof.
  split; [| split].
  - destruct this as [[] [] ? ? ?]; vm_compute;
      repeat first [apply list_elem_of_here | apply list_elem_of_further].
  - apply (bool_decide_unpack _). by vm_compute.
  - split.
    + destruct this as [[] [] ? ? ?], that as [[] [] ? ? ?]; vm_compute;
        intros Heq; first [done | discriminate Heq].
    + unfold getImageKey. by intros [-> ->].
Qed.

Lemma updatePieceSprites_elem b s :
  s ∈ updatePieceSprites b ↔
    ∃ piece, piece ∈ getAllPieces b
      ∧ s = mkSprite (piece_row piece) (piece_col piece)
              (piece_col piece * 100 + 50) (piece_row piece * 100 + 50)
              (getImageKey piece).
Proof.
  unfold updatePieceSprites. rewrite list_elem_of_fmap. naive_solver.
Qed.

(** The sprites drawn after a snapshot: one per piece of the grid, each
    stored in a slot inside the 8 x 10 [pieceSprites] array, no two in the
    same slot, each centred in the tile of the square where [getPiece] finds
    its piece, inside the 1000 x 800 board area. *)
Theorem sprites_after_snapshot (b : ChessBoard) (serverPieces : list ServerPiece) :
  let b' := updateFromServerState b serverPieces in
  length (updatePieceSprites b') = length (getAllPieces b')
  ∧ Forall (λ s,
       0 ≤ slotRow s < 8 ∧ 0 ≤ slotCol s < 10
       ∧ spriteX s = slotCol s * 100 + 50 ∧ spriteY s = slotRow s * 100 + 50
       ∧ 0 < spriteX s < 1000 ∧ 0 < spriteY s < 800
       ∧ ∃ piece, getPiece b' (slotRow s) (slotCol s) = Some piece
                  ∧ imageKey s = getImageKey piece)
      (updatePieceSprites b')
  ∧ NoDup ((λ s, (slotRow s, slotCol s)) <$> updatePieceSprites b').
Proof.
  intros b'. split; [| split].
  - unfold updatePieceSprites. by rewrite length_fmap.
  - apply Forall_forall. intros s (piece & Hin & ->)%updatePieceSprites_elem.
    apply elem_of_getAllPieces in Hin as (r & c & Hr & Hc & Hcell).
    destruct (updateFromServerState_stamped b serverPieces r c piece Hcell)
      as [Hpr Hpc].
    simpl. rewrite Hpr, Hpc. repeat (split; [lia |]).
    exists piece. split; [| done].
    rewrite getPiece_cell by (apply isValidPosition_spec; simpl; lia).
    by rewrite !Nat2Z.id.
  - unfold updatePieceSprites. rewrite <- list_fmap_compose.
    apply NoDup_fmap_2_strong;
      [| apply getAllPieces_NoDup, updateFromServerState_stamped].
    intros p q Hp Hq [= Hr Hc].
    apply elem_of_getAllPieces in Hp as (r1 & c1 & _ & _ & H1).
    apply elem_of_getAllPieces in Hq as (r2 & c2 & _ & _ & H2).
    destruct (updateFromServerState_stamped b serverPieces r1 c1 p H1) as [Hp1 Hp2].
    destruct (updateFromServerState_stamped b serverPieces r2 c2 q H2) as [Hq1 Hq2].
    assert (r1 = r2) as -> by lia. assert (c1 = c2) as -> by lia.
    fold b' in H1, H2. congruence.
Qed.

(** ** Kind strings *)

Lemma kindOfType_Some type k : kindOfType type = Some k ↔ type = getType k.
Proof.
  split; [| intros ->; apply kindOfType_getType].
  unfold kindOfType.
  repeat match goal with
  | |- context [String.eqb type ?s] =>
      destruct (String.eqb_spec type s) as [-> | ?]; [by intros [= <-] |]
  end.
  done.
Qed.

(** The string [getType] returns for a piece is the one [createPieceFromType]
    turns back into a piece of the same class (on the given square, with
    [hasMoved] false); no other string yields that class, so the match is
    exact and case-sensitive. *)
Theorem type_string_round_trip (k : PieceKind) (color : Color) (r c : Z) :
  createPieceFromType (getType k) color r c = Some (mkPiece k color r c false)
  ∧ getType k ∈ knownKinds
  ∧ (∀ type piece,
       createPieceFromType type color r c = Some piece →
       type = getType (piece_kind piece)
       ∧ piece = mkPiece (piece_kind piece) color r c false)
  ∧ createPieceFromType "Pawn" color r c = None.
Proof.
  split; [| split; [| split; [| done]]].
  - unfold createPieceFromType. by rewrite kindOfType_getType.
  - destruct k; vm_compute;
      repeat first [apply list_elem_of_here | apply list_elem_of_further].
  - intros type piece. unfold createPieceFromType.
    destruct (kindOfType type) as [k'|] eqn:Hk; [| done]. intros [= <-].
    by apply kindOfType_Some in Hk.
Qed.
